(** * zdm::lock_wrapper: a value guarded by a mutex

    Shallow embedding of [include/zdm/lock_wrapper.hpp] and of the scenarios
    of [tests/unit_tests/lock_wrapper.test.cpp].

    The header has a compile-time half and a run-time half, and the
    development follows that split:

    - [Types]: the fragment of the C++ type system that the header inspects:
      [function_traits], the two concepts, deduction of the [auto &&]
      parameter and the choice between the two [with_lock] overloads;
    - [Mutex]: the three standard mutexes the header is specialised for, the
      lock classes of [mutex_traits], and what their constructors and
      destructors do to a mutex;
    - [Init]: default-, zero- and value-initialization, as far as the
      defaulted constructor of the wrapper needs them;
    - [Wrapper]: [basic_lock_wrapper] itself, run by one thread;
    - [Threads]: several threads calling [with_lock] on one wrapper, as in
      the last test case. *)

From stdpp Require Import base decidable option list strings.
From Stdlib Require Import ZArith Lia.

Set Warnings "-register-all".

(** ** The C++ types the header looks at *)

Module Types.

(** Reference qualifier of a member function. *)
Inductive ref_qualifier := RefNone | RefLValue | RefRValue.

(** Everything that is part of a function type besides the return type and
    the parameter types. A free function has neither [const] nor a reference
    qualifier; [noexcept] is part of the type since C++17. *)
Record fn_qualifiers := FnQualifiers {
  fq_const : bool;
  fq_volatile : bool;
  fq_ref : ref_qualifier;
  fq_noexcept : bool;
  fq_variadic : bool (* a trailing C ellipsis *)
}.

Inductive type :=
| TVoid
| TInt
| TBool
| TDouble
| TParam (name : string)          (* a template parameter, e.g. behind [auto] *)
| TClass (name : string)          (* a class type, closure types included *)
| TConst (t : type)               (* const T *)
| TLRef (t : type)                (* T &  *)
| TRRef (t : type)                (* T && *)
| TPtr (t : type)                 (* T *  *)
| TFun (ret : type) (params : list type) (q : fn_qualifiers)
                                  (* R ( Args... ) qualifiers *)
| TMemPtr (cls : string) (member : type).
                                  (* member C::* *)

Global Instance ref_qualifier_eq_dec : EqDecision ref_qualifier.
Proof. solve_decision. Defined.

Global Instance fn_qualifiers_eq_dec : EqDecision fn_qualifiers.
Proof. solve_decision. Defined.

Fixpoint type_eq_dec (a b : type) {struct a} : {a = b} + {a <> b}.
Proof.
  refine
    (match a, b with
     | TVoid, TVoid | TInt, TInt | TBool, TBool | TDouble, TDouble =>
         left eq_refl
     | TParam n, TParam m | TClass n, TClass m => cast_if (decide (n = m))
     | TConst t, TConst u | TLRef t, TLRef u
     | TRRef t, TRRef u | TPtr t, TPtr u => cast_if (type_eq_dec t u)
     | TFun r ps q, TFun r' ps' q' =>
         cast_if_and3 (type_eq_dec r r') (decide (q = q'))
           ((fix params_eq_dec (l l' : list type) {struct l}
               : {l = l'} + {l <> l'} :=
               match l, l' with
               | [], [] => left eq_refl
               | x :: xs, y :: ys =>
                   cast_if_and (type_eq_dec x y) (params_eq_dec xs ys)
               | _, _ => right _
               end) ps ps')
     | TMemPtr c m, TMemPtr c' m' =>
         cast_if_and (decide (c = c')) (type_eq_dec m m')
     | _, _ => right _
     end); congruence.
Defined.

Global Instance type_eq : EqDecision type := type_eq_dec.

(** [R ( Args... )] with nothing added. *)
Definition unqualified : fn_qualifiers :=
  FnQualifiers false false RefNone false false.

(** The qualifiers of [R ( Class::* )( Args... ) const]. *)
Definition const_member : fn_qualifiers :=
  FnQualifiers true false RefNone false false.

(** [const T] for a template argument [T]: a second [const] is absorbed, and
    [const] on a reference or a function type is ignored. *)
Definition add_const (t : type) : type :=
  match t with
  | TConst _ | TLRef _ | TRRef _ | TFun _ _ _ => t
  | _ => TConst t
  end.

(** [T &] for a template argument [T], with reference collapsing. *)
Definition add_lvalue_reference (t : type) : type :=
  match t with
  | TLRef u | TRRef u => TLRef u
  | _ => TLRef t
  end.

Definition remove_const (t : type) : type :=
  match t with TConst u => u | _ => t end.

Definition remove_reference (t : type) : type :=
  match t with TLRef u | TRRef u => u | _ => t end.

(** *** Classes and their call operators *)

(** One declaration of [operator()] in a class. A generic lambda declares a
    member template. *)
Record call_operator := CallOperator {
  op_template : bool;
  op_ret : type;
  op_params : list type;
  op_quals : fn_qualifiers
}.

(** The program's classes: for each class name, its declarations of
    [operator()], in order. *)
Definition class_env := string -> list call_operator.

(** *** detail::function_traits *)

(** The result of a specialisation: [return_type] and [arg_types]. *)
Record traits := Traits {
  return_type : type;
  arg_types : list type
}.

(** The primary template is declared and never defined; the four partial
    specialisations are

      R ( & )( Args... )      R ( * )( Args... )      R( Args... )
      R ( Class::* )( Args... ) const

    A partial specialisation matches a type of exactly its form. *)
Definition function_traits (F : type) : option traits :=
  match F with
  | TLRef (TFun r args q) =>
      if decide (q = unqualified) then Some (Traits r args) else None
  | TPtr (TFun r args q) =>
      if decide (q = unqualified) then Some (Traits r args) else None
  | TFun r args q =>
      if decide (q = unqualified) then Some (Traits r args) else None
  | TMemPtr _ (TFun r args q) =>
      if decide (q = const_member) then Some (Traits r args) else None
  | _ => None
  end.

(** [decltype( &AFunction::operator() )]. The qualified name needs a class
    type before [::] (a reference type has no members), and the address can
    only be taken of a single function that is not a template. *)
Definition call_operator_pointer (env : class_env) (F : type) : option type :=
  match remove_const F with
  | TClass c =>
      match env c with
      | [op] =>
          if op_template op then None
          else Some (TMemPtr c (TFun (op_ret op) (op_params op) (op_quals op)))
      | _ => None
      end
  | _ => None
  end.

(** *** The concepts *)

(** One [requires { ... }] block of the concepts:
    [tuple_size_v<arg_types> == 1] and
    [same_as<tuple_element_t<0, arg_types>, P>]. A type that does not exist
    makes the block false. *)
Definition sole_parameter_is (P : type) (tr : option traits) : bool :=
  match tr with
  | Some (Traits _ [a]) => bool_decide (a = P)
  | _ => false
  end.

Definition unary_reference_function
    (env : class_env) (AFunction T : type) : bool :=
  sole_parameter_is (add_lvalue_reference T) (function_traits AFunction)
  || sole_parameter_is (add_lvalue_reference T)
       (call_operator_pointer env AFunction ≫= function_traits).

Definition unary_const_reference_function
    (env : class_env) (AFunction T : type) : bool :=
  sole_parameter_is (add_lvalue_reference (add_const T))
    (function_traits AFunction)
  || sole_parameter_is (add_lvalue_reference (add_const T))
       (call_operator_pointer env AFunction ≫= function_traits).

(** *** Passing the callable *)

Inductive value_category := LValue | XValue | PRValue.

(** The argument expression of a call of [with_lock]: its type (never a
    reference) and its value category. The name of a function is an lvalue
    of function type; a lambda expression is a prvalue of its closure
    type; a named closure object is an lvalue. *)
Record argument := Argument {
  arg_type : type;
  arg_category : value_category
}.

(** What [auto] stands for in [auto &&a_function]: a forwarding reference
    deduces an lvalue reference from an lvalue and the plain type from an
    rvalue. The concept in front of [auto] is checked on this type. *)
Definition deduce_auto (a : argument) : type :=
  match arg_category a with
  | LValue => TLRef (arg_type a)
  | XValue | PRValue => arg_type a
  end.

(** The wrapper expression [with_lock] is called on. *)
Inductive handle := MutableHandle | ConstHandle.

(** Whether a non-const member function can be called through the handle. *)
Definition allows_mutation (h : handle) : bool :=
  match h with MutableHandle => true | ConstHandle => false end.

(** The two overloads of [with_lock], named after the member of
    [mutex_traits] they lock with. *)
Inductive overload := UniqueOverload | SharedOverload.

(** [decltype( a_function( x ) )], the trailing return type of both
    overloads, for an [x] that the parameter accepts: the type exists when
    [a_function] can be called with call syntax, which a function, a
    pointer to one and an object with one call operator can, and a pointer
    to member cannot. Without the type the overload is no candidate. *)
Definition call_return_type (env : class_env) (AFunction : type)
  : option type :=
  match remove_const (remove_reference AFunction) with
  | TFun r _ _ | TPtr (TFun r _ _) => Some r
  | TClass c =>
      match env c with
      | [op] => Some (op_ret op)
      | _ => None
      end
  | _ => None
  end.

(** Overload resolution for [wrapper.with_lock( a )]. The first overload is
    not a const member, so a const wrapper cannot use it; the second is
    usable from both. When both are viable, a non-const wrapper binds better
    to the non-const member. The concept of each overload has by then fixed
    the parameter to a reference that [m_contained] binds to. *)
Definition select_overload
    (env : class_env) (T : type) (h : handle) (a : argument)
  : option overload :=
  let AFunction := deduce_auto a in
  if bool_decide (is_Some (call_return_type env AFunction)) then
    if allows_mutation h && unary_reference_function env AFunction T
    then Some UniqueOverload
    else if unary_const_reference_function env AFunction T
    then Some SharedOverload
    else None
  else None.

(** *** What a caller sees of a callable *)

(** The parameter list a callable was declared with, whatever its
    qualifiers: of a function, a reference or pointer to one, or a class
    object with one call operator. Nothing else can be called with call
    syntax, and an object with several call operators or none has no one
    parameter list. *)
Definition declared_parameters (env : class_env) (t : type)
  : option (list type) :=
  match remove_const (remove_reference t) with
  | TFun _ ps _ | TPtr (TFun _ ps _) => Some ps
  | TClass c =>
      match env c with
      | [op] => Some (op_params op)
      | _ => None
      end
  | _ => None
  end.

(** The types on which [const] has no effect, so that [const T &] is the
    type [T &]: those that are const already, references and function
    types. *)
Definition absorbs_const (t : type) : bool :=
  match t with
  | TConst _ | TLRef _ | TRRef _ | TFun _ _ _ => true
  | _ => false
  end.

End Types.

(** ** Mutexes and the locks of mutex_traits *)

Module Mutex.

(** The mutexes [mutex_traits] is specialised for. Its primary template is
    only declared, so the header as it stands can be instantiated with
    these three and no other. *)
Inductive mutex_kind := std_mutex | std_shared_mutex | std_recursive_mutex.

(** The lock class templates used by the specialisations. *)
Inductive lock_template := std_scoped_lock | std_unique_lock | std_shared_lock.

(** A lock class, such as [std::scoped_lock<std::mutex>]. *)
Record lock_type := LockType {
  lock_class : lock_template;
  lock_mutex : mutex_kind
}.

Record mutex_traits_t := MutexTraits {
  mutex_type : mutex_kind;
  unique_lock : lock_type;
  shared_lock : lock_type
}.

Definition mutex_traits (ALockable : mutex_kind) : mutex_traits_t :=
  match ALockable with
  | std_mutex =>
      {| mutex_type := std_mutex;
         unique_lock := LockType std_scoped_lock std_mutex;
         shared_lock := LockType std_scoped_lock std_mutex |}
  | std_shared_mutex =>
      {| mutex_type := std_shared_mutex;
         unique_lock := LockType std_unique_lock std_shared_mutex;
         shared_lock := LockType std_shared_lock std_shared_mutex |}
  | std_recursive_mutex =>
      {| mutex_type := std_recursive_mutex;
         unique_lock := LockType std_scoped_lock std_recursive_mutex;
         shared_lock := LockType std_scoped_lock std_recursive_mutex |}
  end.

(** The alias templates at the end of the header, each
    [basic_lock_wrapper<T, ...>] for one mutex. *)
Inductive wrapper_alias :=
  lock_wrapper | shared_lock_wrapper | recursive_lock_wrapper.

Definition alias_mutex (a : wrapper_alias) : mutex_kind :=
  match a with
  | lock_wrapper => std_mutex
  | shared_lock_wrapper => std_shared_mutex
  | recursive_lock_wrapper => std_recursive_mutex
  end.

Definition all_aliases : list wrapper_alias :=
  [lock_wrapper; shared_lock_wrapper; recursive_lock_wrapper].

(** *** The state of a mutex *)

(** Threads are numbered. *)
Abbreviation thread_id := nat.

(** Who owns the mutex: at most one thread exclusively, with the number of
    further nested [lock()] calls it has made (only a recursive mutex gets
    beyond 0), and the threads that own it in shared mode. *)
Record mutex_state := MutexState {
  owner : option (thread_id * nat);
  readers : list thread_id
}.

Definition unlocked : mutex_state := MutexState None [].

(** A call on a mutex returns with a new state, does not return while other
    threads own the mutex, or has undefined behaviour. *)
Inductive outcome :=
| Ok (m : mutex_state)
| Waits
| Undefined.

Inductive mutex_call := CallLock | CallLockShared | CallUnlock | CallUnlockShared.

Fixpoint remove_first (t : thread_id) (l : list thread_id) : list thread_id :=
  match l with
  | [] => []
  | r :: rest => if decide (r = t) then rest else r :: remove_first t rest
  end.

(** [m.lock()] by thread [t]. Locking a mutex one already owns is undefined
    except for the recursive mutex, which counts. *)
Definition lock (k : mutex_kind) (t : thread_id) (m : mutex_state) : outcome :=
  match owner m with
  | Some (o, n) =>
      if decide (o = t) then
        match k with
        | std_recursive_mutex => Ok (MutexState (Some (t, S n)) (readers m))
        | std_mutex | std_shared_mutex => Undefined
        end
      else Waits
  | None =>
      match readers m with
      | [] => Ok (MutexState (Some (t, 0)) [])
      | _ :: _ => if bool_decide (t ∈ readers m) then Undefined else Waits
      end
  end.

(** [m.lock_shared()], a member of [std::shared_mutex] alone. *)
Definition lock_shared
    (k : mutex_kind) (t : thread_id) (m : mutex_state) : outcome :=
  match k with
  | std_shared_mutex =>
      match owner m with
      | Some (o, _) => if decide (o = t) then Undefined else Waits
      | None =>
          if bool_decide (t ∈ readers m) then Undefined
          else Ok (MutexState None (t :: readers m))
      end
  | std_mutex | std_recursive_mutex => Undefined
  end.

(** [m.unlock()]: the calling thread must own the mutex. *)
Definition unlock (k : mutex_kind) (t : thread_id) (m : mutex_state) : outcome :=
  match owner m with
  | Some (o, n) =>
      if decide (o = t) then
        match n with
        | 0 => Ok (MutexState None (readers m))
        | S n' => Ok (MutexState (Some (t, n')) (readers m))
        end
      else Undefined
  | None => Undefined
  end.

(** [m.unlock_shared()]. *)
Definition unlock_shared
    (k : mutex_kind) (t : thread_id) (m : mutex_state) : outcome :=
  match k with
  | std_shared_mutex =>
      if bool_decide (t ∈ readers m)
      then Ok (MutexState (owner m) (remove_first t (readers m)))
      else Undefined
  | std_mutex | std_recursive_mutex => Undefined
  end.

Definition perform
    (k : mutex_kind) (c : mutex_call) (t : thread_id) (m : mutex_state)
  : outcome :=
  match c with
  | CallLock => lock k t m
  | CallLockShared => lock_shared k t m
  | CallUnlock => unlock k t m
  | CallUnlockShared => unlock_shared k t m
  end.

(** What the constructor of a lock class calls on the mutex it is given,
    and what its destructor calls. *)
Definition constructor_call (l : lock_template) : mutex_call :=
  match l with
  | std_scoped_lock | std_unique_lock => CallLock
  | std_shared_lock => CallLockShared
  end.

Definition destructor_call (l : lock_template) : mutex_call :=
  match l with
  | std_scoped_lock | std_unique_lock => CallUnlock
  | std_shared_lock => CallUnlockShared
  end.

Definition construct (l : lock_type) : thread_id -> mutex_state -> outcome :=
  perform (lock_mutex l) (constructor_call (lock_class l)).

Definition destroy (l : lock_type) : thread_id -> mutex_state -> outcome :=
  perform (lock_mutex l) (destructor_call (lock_class l)).

(** The two ways a mutex can be owned. *)
Inductive lock_mode := Exclusive | Shared.

Definition mode_of (c : mutex_call) : lock_mode :=
  match c with
  | CallLock | CallUnlock => Exclusive
  | CallLockShared | CallUnlockShared => Shared
  end.

(** Thread [t] gets the lock when it constructs an [L] on the mutex now. *)
Definition obtains (L : lock_type) (t : thread_id) (m : mutex_state) : bool :=
  match construct L t m with
  | Ok _ => true
  | Waits | Undefined => false
  end.

End Mutex.

(** ** Initialization of objects *)

Module Init.

(** A type as initialization sees it: a scalar (arithmetic, enumeration or
    pointer type), or a class. Of a class it matters whether its default
    constructor is user-provided, and, for each base and non-static data
    member in order, whether the default constructor or a default member
    initializer gives it a value in all its parts ([true]) or it is left
    to default-initialization ([false]). *)
Inductive object_type :=
| Scalar
| Class (user_provided : bool) (members : list (bool * object_type)).

(** The value of an object after initialization. *)
Inductive object :=
| Indeterminate
| Zero
| Given
| Members (ms : list object).

(** Default-initialization of storage that has been zeroed before
    ([zeroed = true]) or not: nothing is done to a scalar; the default
    constructor of a class, user-provided or not, gives the members it
    has an initializer for their values and default-initializes the
    others. *)
Fixpoint default_initialize (zeroed : bool) (T : object_type) : object :=
  match T with
  | Scalar => if zeroed then Zero else Indeterminate
  | Class _ ms =>
      Members
        (map (fun m : bool * object_type =>
                let '(given, U) := m in
                if given then Given else default_initialize zeroed U)
             ms)
  end.

Definition is_user_provided (T : object_type) : bool :=
  match T with
  | Scalar => false
  | Class user_provided _ => user_provided
  end.

(** Value-initialization: a class with a user-provided default constructor
    is default-initialized; any other class is zero-initialized and then
    default-initialized; everything else is zero-initialized. *)
Definition value_initialize (T : object_type) : object :=
  match T with
  | Scalar => Zero
  | Class true _ => default_initialize false T
  | Class false _ => default_initialize true T
  end.

(** A standard mutex: its constructor sets up its state. *)
Definition mutex_type : object_type := Class true [(true, Scalar)].

(** [basic_lock_wrapper<AContainedType, AMutexType>] has
    [basic_lock_wrapper() = default;] and the members [m_mutex] and
    [m_contained], neither with an initializer. *)
Definition basic_lock_wrapper (AContainedType : object_type) : object_type :=
  Class false [(false, mutex_type); (false, AContainedType)].

(** Where the wrapper object lives. An object of static or thread storage
    duration is zero-initialized before any other initialization. *)
Inductive storage_duration := Static | Thread | Automatic | Dynamic.

Definition zero_initialized_first (d : storage_duration) : bool :=
  match d with
  | Static | Thread => true
  | Automatic | Dynamic => false
  end.

(** The two ways to create a wrapper without constructor arguments:
    [W w;] (or [new W]) and [W w{};] (or [W()], [new W()]). *)
Inductive initializer := NoInitializer | EmptyInitializer.

Definition construct
    (d : storage_duration) (i : initializer) (AContainedType : object_type)
  : object :=
  match i with
  | NoInitializer =>
      default_initialize (zero_initialized_first d)
        (basic_lock_wrapper AContainedType)
  | EmptyInitializer => value_initialize (basic_lock_wrapper AContainedType)
  end.

(** Whether the storage of the wrapper is zeroed before its constructor
    runs. *)
Definition zeroed_before (d : storage_duration) (i : initializer) : bool :=
  match i with
  | NoInitializer => zero_initialized_first d
  | EmptyInitializer => true
  end.

Definition m_mutex (wrapper : object) : option object :=
  match wrapper with
  | Members [m; _] => Some m
  | _ => None
  end.

Definition m_contained (wrapper : object) : option object :=
  match wrapper with
  | Members [_; c] => Some c
  | _ => None
  end.

(** [a] is [b] with values where [b] may have none. *)
Fixpoint fills (a b : object) {struct b} : bool :=
  match b with
  | Indeterminate => true
  | Zero => match a with Zero => true | _ => false end
  | Given => match a with Given => true | _ => false end
  | Members bs =>
      match a with
      | Members parts =>
          (fix each (xs ys : list object) {struct ys} : bool :=
             match xs, ys with
             | [], [] => true
             | x :: xs', y :: ys' => fills x y && each xs' ys'
             | _, _ => false
             end) parts bs
      | _ => false
      end
  end.

(** No part of the object is without a value. *)
Fixpoint determinate (o : object) : bool :=
  match o with
  | Indeterminate => false
  | Zero | Given => true
  | Members ms => forallb determinate ms
  end.

(** The type has a scalar that nothing gives a value: itself, or one in a
    member that has no initializer. *)
Fixpoint has_bare_scalar (T : object_type) : bool :=
  match T with
  | Scalar => true
  | Class _ ms =>
      existsb (fun m : bool * object_type =>
                 let '(given, U) := m in
                 negb given && has_bare_scalar U) ms
  end.

End Init.

(** ** basic_lock_wrapper, used by one thread *)

Module Wrapper.
Import Mutex.

(** How a call of the caller's function ends. *)
Inductive call_result (R E : Type) :=
| Returned (r : R)
| Raised (e : E).
Arguments Returned {R E} r.
Arguments Raised {R E} e.

Section basic_lock_wrapper.
(** The values of [AContainedType], the exceptions of the program, the
    mutex the wrapper is instantiated with and the calling thread. *)
Context {V E : Type}.
Variable AMutexType : mutex_kind.
Variable self : thread_id.

Record basic_lock_wrapper := LockWrapper {
  m_mutex : mutex_state;
  m_contained : V
}.

(** What the wrapper does, in order: calls on [m_mutex] and calls of
    [a_function], with the value it is handed a reference to. *)
Inductive event :=
| OnMutex (c : mutex_call)
| Invoke (v : V).

(** A member function run to its end: it returns or throws, leaving the
    wrapper in some state; or it waits for the mutex; or its behaviour is
    undefined. *)
Inductive exec (A : Type) :=
| Finished (r : call_result A E) (w : basic_lock_wrapper) (tr : list event)
| Blocked
| UndefinedBehaviour.
Arguments Finished {A} r w tr.
Arguments Blocked {A}.
Arguments UndefinedBehaviour {A}.

Definition action (A : Type) : Type := basic_lock_wrapper -> exec A.

Definition ret {A} (a : A) : action A :=
  fun w => Finished (Returned a) w [].

(** Sequencing of statements: an exception leaves the sequence. *)
Definition bind {A B} (c : action A) (k : A -> action B) : action B :=
  fun w =>
    match c w with
    | Finished (Returned a) w1 tr1 =>
        match k a w1 with
        | Finished r w2 tr2 => Finished r w2 (tr1 ++ tr2)
        | Blocked => Blocked
        | UndefinedBehaviour => UndefinedBehaviour
        end
    | Finished (Raised e) w1 tr1 => Finished (Raised e) w1 tr1
    | Blocked => Blocked
    | UndefinedBehaviour => UndefinedBehaviour
    end.

(** A call on [m_mutex] made by a lock object. *)
Definition on_mutex (c : mutex_call) (o : outcome) : action unit :=
  fun w =>
    match o with
    | Ok m => Finished (Returned tt) (LockWrapper m (m_contained w)) [OnMutex c]
    | Waits => Blocked
    | Undefined => UndefinedBehaviour
    end.

(** [L lock( m_mutex );] and the destructor of that [lock]. *)
Definition lock_constructor (L : lock_type) : action unit :=
  fun w =>
    on_mutex (constructor_call (lock_class L))
      (Mutex.construct L self (m_mutex w)) w.

Definition lock_destructor (L : lock_type) : action unit :=
  fun w =>
    on_mutex (destructor_call (lock_class L))
      (Mutex.destroy L self (m_mutex w)) w.

(** A block whose one local variable is a lock on [m_mutex]:
    [{ L lock( m_mutex ); body }]. The destructor of [lock] runs when the
    block is left, by a return and by an exception alike, and the block
    then ends the way its body did. *)
Definition scoped {A} (L : lock_type) (body : action A) : action A :=
  fun w =>
    match lock_constructor L w with
    | Finished _ w1 tr1 =>
        match body w1 with
        | Finished r w2 tr2 =>
            match lock_destructor L w2 with
            | Finished _ w3 tr3 => Finished r w3 (tr1 ++ tr2 ++ tr3)
            | Blocked => Blocked
            | UndefinedBehaviour => UndefinedBehaviour
            end
        | Blocked => Blocked
        | UndefinedBehaviour => UndefinedBehaviour
        end
    | Blocked => Blocked
    | UndefinedBehaviour => UndefinedBehaviour
    end.

(** [a_function( m_contained )] in the non-const overload: the function
    gets [AContainedType &] and may leave another value behind, also when
    it throws. *)
Definition call_mutable {R} (a_function : V -> V * call_result R E)
  : action R :=
  fun w =>
    let (v, r) := a_function (m_contained w) in
    Finished r (LockWrapper (m_mutex w) v) [Invoke (m_contained w)].

(** [a_function( m_contained )] in the const overload: [m_contained] is
    const there and the function gets [const AContainedType &]. *)
Definition call_const {R} (a_function : V -> call_result R E) : action R :=
  fun w => Finished (a_function (m_contained w)) w [Invoke (m_contained w)].

(** *** Construction and unsynchronized access *)

(** [explicit basic_lock_wrapper( AContainedType &&a_contained )]:
    [m_mutex] is default-constructed, [m_contained] is constructed from
    the argument. *)
Definition construct (a_contained : V) : basic_lock_wrapper :=
  LockWrapper unlocked a_contained.

(** [operator*], const and non-const: [return m_contained;]. *)
Definition deref : action V :=
  fun w => ret (m_contained w) w.

(** [operator->], const and non-const: the address of [m_contained],
    through which a member [member] is then read. *)
Definition arrow {A} (member : V -> A) : action A :=
  fun w => ret (member (m_contained w)) w.

(** *** with_lock *)

Notation "x ← c ; k" := (bind c (fun x => k))
  (at level 20, c at level 100, k at level 200, only parsing).

Local Abbreviation unique := (unique_lock (mutex_traits AMutexType)).
Local Abbreviation shared := (shared_lock (mutex_traits AMutexType)).

(** The first overload,

      typename mutex_traits<AMutexType>::unique_lock lock( m_mutex );
      if constexpr( std::is_void_v<decltype( a_function( m_contained ) )> )
      { a_function( m_contained ); return; }
      else
      { return a_function( m_contained ); }

    The arm taken is fixed by the return type of [a_function]; [void] is
    the type [unit] here, so the first arm is for functions to [unit]. *)
Definition with_lock_void_arm (a_function : V -> V * call_result unit E)
  : action unit :=
  scoped unique
    (_ ← call_mutable a_function;
     ret tt).

Definition with_lock_value_arm {R} (a_function : V -> V * call_result R E)
  : action R :=
  scoped unique
    (result ← call_mutable a_function;
     ret result).

(** Returning the unit value says no more than returning: the second arm
    stands for both ([mutable_applies_in_place] has the proof). *)
Definition with_lock {R} (a_function : V -> V * call_result R E) : action R :=
  with_lock_value_arm a_function.

(** The second overload, [const], with [shared_lock] for [unique_lock] and
    the same two arms. *)
Definition with_lock_const_void_arm (a_function : V -> call_result unit E)
  : action unit :=
  scoped shared
    (_ ← call_const a_function;
     ret tt).

Definition with_lock_const_value_arm {R} (a_function : V -> call_result R E)
  : action R :=
  scoped shared
    (result ← call_const a_function;
     ret result).

Definition with_lock_const {R} (a_function : V -> call_result R E) : action R :=
  with_lock_const_value_arm a_function.

(** The second overload run on a function that is declared with
    [const AContainedType &] and writes the value all the same, through a
    reference to the object that it holds itself: the concept looks at the
    declared parameter alone. *)
Definition with_lock_const_aliased {R} (a_function : V -> V * call_result R E)
  : action R :=
  scoped shared
    (result ← call_mutable a_function;
     ret result).

(** *** Callables that hold the wrapper *)

(** [a_function( m_contained )] for a closure that has captured the wrapper
    by reference: besides the value it is handed, it can call the members
    of the wrapper, [with_lock] among them. *)
Definition call_capturing {R} (a_function : V -> action R) : action R :=
  fun w =>
    match a_function (m_contained w) w with
    | Finished r w' tr => Finished r w' (Invoke (m_contained w) :: tr)
    | Blocked => Blocked
    | UndefinedBehaviour => UndefinedBehaviour
    end.

(** The two overloads for such a closure: the same bodies. *)
Definition with_lock_capturing {R} (a_function : V -> action R) : action R :=
  scoped unique
    (result ← call_capturing a_function;
     ret result).

Definition with_lock_const_capturing {R} (a_function : V -> action R)
  : action R :=
  scoped shared
    (result ← call_capturing a_function;
     ret result).

(** A function that has captured nothing, as a closure that has the
    wrapper and leaves it alone. *)
Definition ignoring_wrapper {R} (f : V -> V * call_result R E)
  : V -> action R :=
  fun v w => Finished (f v).2 (LockWrapper (m_mutex w) (f v).1) [].

(** *** Calls in a row *)

(** [std::ranges::for_each( range, f )] as the threads of the last test
    use it: [f] on each element in turn, ended by an exception. *)
Fixpoint for_each {A} (range : list A) (f : A -> action unit) : action unit :=
  match range with
  | [] => ret tt
  | x :: rest =>
      _ ← f x;
      for_each rest f
  end.

(** What functions applied in turn to a value come to: the values they
    were handed, the value left, and how the last one called ended. *)
Fixpoint in_turn (fs : list (V -> V * call_result unit E)) (v : V)
  : list V * V * call_result unit E :=
  match fs with
  | [] => ([], v, Returned tt)
  | f :: rest =>
      match f v with
      | (v', Returned _) =>
          let '(seen, last, r) := in_turn rest v' in (v :: seen, last, r)
      | (v', Raised e) => ([v], v', Raised e)
      end
  end.

End basic_lock_wrapper.

Arguments Finished {V E A} r w tr.
Arguments Blocked {V E A}.
Arguments UndefinedBehaviour {V E A}.
Arguments OnMutex {V} c.
Arguments Invoke {V} v.
Arguments LockWrapper {V} m_mutex m_contained.
Arguments basic_lock_wrapper : clear implicits.
Arguments event : clear implicits.
Arguments exec : clear implicits.
Arguments action : clear implicits.

End Wrapper.

(** ** A call of with_lock as the compiler and then the program see it *)

Module Program.
Import Types Mutex Wrapper.

Section call.
Context {V E R : Type}.
Variable env : class_env.
Variable AContainedType : type.
Variable AMutexType : mutex_kind.
Variable self : thread_id.

(** What a function of one reference parameter does with the value. A
    function writes through a parameter that is a reference to non-const,
    or, whatever its parameter, through a reference to the same object
    that it holds otherwise. *)
Inductive operation :=
| Mutating (f : V -> V * call_result R E)
| ReadOnly (f : V -> call_result R E).

(** A callable as written at the call: the expression passed, and what
    the function it designates does. *)
Record callable := Callable {
  passed_as : argument;
  does : operation
}.

Inductive compiled :=
| IllFormed
| WellFormed (run : action V E R).

(** Called through [AContainedType &], a reading function leaves the
    value as it is. *)
Definition as_mutating (op : operation) : V -> V * call_result R E :=
  match op with
  | Mutating f => f
  | ReadOnly f => fun v => (v, f v)
  end.

(** [wrapper.with_lock( c )]. No overload selected: the program does not
    compile. Otherwise the selected overload runs the function, which
    does what it does under the lock of that overload. *)
Definition call_with_lock (h : handle) (c : callable) : compiled :=
  match select_overload env AContainedType h (passed_as c) with
  | Some UniqueOverload =>
      WellFormed (with_lock AMutexType self (as_mutating (does c)))
  | Some SharedOverload =>
      match does c with
      | ReadOnly f => WellFormed (with_lock_const AMutexType self f)
      | Mutating f => WellFormed (with_lock_const_aliased AMutexType self f)
      end
  | None => IllFormed
  end.

(** The ways of passing a callable that the tests use, with the parameter
    list of the function: the name of a function (an lvalue), a pointer
    to a function given as an rvalue, and an rvalue closure with a single
    call operator that is const and not a template. *)
Definition parameters_as_passed (a : argument) : option (list type) :=
  match arg_type a, arg_category a with
  | TFun _ ps q, LValue =>
      if decide (q = unqualified) then Some ps else None
  | TPtr (TFun _ ps q), (XValue | PRValue) =>
      if decide (q = unqualified) then Some ps else None
  | TClass c, (XValue | PRValue) =>
      match env c with
      | [op] =>
          if op_template op then None
          else if decide (op_quals op = const_member)
               then Some (op_params op) else None
      | _ => None
      end
  | _, _ => None
  end.

(** [AContainedType &] and [const AContainedType &] as the concepts spell
    them. *)
Definition mutable_reference : type := add_lvalue_reference AContainedType.
Definition const_reference : type :=
  add_lvalue_reference (add_const AContainedType).

(** The parameter list is one of the two that [with_lock] is declared
    for. *)
Definition valid_shape (a : argument) : bool :=
  bool_decide (declared_parameters env (arg_type a) = Some [mutable_reference])
  || bool_decide (declared_parameters env (arg_type a) = Some [const_reference]).

(** The overload that the parameter list alone calls for. *)
Definition overload_for (h : handle) (ps : list type) : option overload :=
  if allows_mutation h && bool_decide (ps = [mutable_reference])
  then Some UniqueOverload
  else if bool_decide (ps = [const_reference])
  then Some SharedOverload
  else None.

End call.

Arguments IllFormed {V E R}.
Arguments WellFormed {V E R} run.
Arguments Callable {V E R} passed_as does.
Arguments operation : clear implicits.
Arguments callable : clear implicits.
Arguments compiled : clear implicits.

End Program.

(** ** Threads that increment a shared counter *)

Module Threads.
Import Mutex.

Section counter.
Context {V : Type}.
(** [++value] on the contained type. *)
Variable increment : V -> V.
Variable AMutexType : mutex_kind.

(** Where a thread stands. It makes its calls
    [wrapper.with_lock( []( T &value ) { ++value; } )] one after the
    other; [calls] counts those it has not begun. Within a call it
    constructs the lock, reads the value, writes the incremented value
    and destroys the lock. *)
Inductive thread :=
| Outside (calls : nat)
| Locked (calls : nat)
| Loaded (calls : nat) (r : V)
| Stored (calls : nat).

Record state := State {
  mutex : mutex_state;
  value : V;
  threads : list thread
}.

Inductive progress :=
| Steps (s : state)
| Waiting     (* the mutex is owned by another thread *)
| Ended       (* no such thread, or nothing left to do *)
| Faults.     (* undefined behaviour *)

Definition on_outcome (o : outcome) (k : mutex_state -> state) : progress :=
  match o with
  | Ok m => Steps (k m)
  | Waits => Waiting
  | Undefined => Faults
  end.

(** The next step of thread [t]. *)
Definition step (t : thread_id) (s : state) : progress :=
  match threads s !! t with
  | None | Some (Outside 0) => Ended
  | Some (Outside (S n)) =>
      on_outcome (construct (unique_lock (mutex_traits AMutexType)) t (mutex s))
        (fun m => State m (value s) (<[t := Locked n]> (threads s)))
  | Some (Locked n) =>
      Steps (State (mutex s) (value s) (<[t := Loaded n (value s)]> (threads s)))
  | Some (Loaded n r) =>
      Steps (State (mutex s) (increment r) (<[t := Stored n]> (threads s)))
  | Some (Stored n) =>
      on_outcome (destroy (unique_lock (mutex_traits AMutexType)) t (mutex s))
        (fun m => State m (value s) (<[t := Outside n]> (threads s)))
  end.

(** An execution: the threads take steps in the order of the schedule.
    A schedule that names a thread which cannot step is not one of the
    program. *)
Fixpoint run (schedule : list thread_id) (s : state) : option state :=
  match schedule with
  | [] => Some s
  | t :: rest =>
      match step t s with
      | Steps s' => run rest s'
      | Waiting | Ended | Faults => None
      end
  end.

(** [n] threads are started on a wrapper holding [v], each to make
    [calls] calls. *)
Definition start (n calls : nat) (v : V) : state :=
  State unlocked v (replicate n (Outside calls)).

Definition has_ended (th : thread) : bool :=
  match th with Outside 0 => true | _ => false end.

(** All threads can be joined. *)
Definition joined (s : state) : bool := forallb has_ended (threads s).

Definition inside (th : thread) : bool :=
  match th with Outside _ => false | _ => true end.

(** The steps a thread still has to take. *)
Definition steps_left (th : thread) : nat :=
  match th with
  | Outside n => 4 * n
  | Locked n => 4 * n + 3
  | Loaded n _ => 4 * n + 2
  | Stored n => 4 * n + 1
  end.

Definition work (s : state) : nat := sum_list (steps_left <$> threads s).

(** The increments a thread has yet to write. *)
Definition pending (th : thread) : nat :=
  match th with
  | Outside n | Stored n => n
  | Locked n | Loaded n _ => S n
  end.

Definition increments_due (s : state) : nat :=
  sum_list (pending <$> threads s).

(** What holds of every state the threads can reach, for the value
    [target] that all increments together lead to: a thread inside a
    call owns the mutex, the owner of the mutex is inside a call, nobody
    owns it in shared mode, a thread that has read holds the current
    value, and the increments still due lead from the current value to
    the target. *)
Record invariant (target : V) (s : state) : Prop := Invariant {
  inv_inside : forall t th,
    threads s !! t = Some th -> inside th = true ->
    owner (mutex s) = Some (t, 0);
  inv_owner : forall o n,
    owner (mutex s) = Some (o, n) ->
    exists th, threads s !! o = Some th /\ inside th = true;
  inv_readers : readers (mutex s) = [];
  inv_loaded : forall t n r,
    threads s !! t = Some (Loaded n r) -> r = value s;
  inv_value : Nat.iter (increments_due s) increment (value s) = target
}.

End counter.

Arguments thread : clear implicits.
Arguments state : clear implicits.
Arguments Outside {V} calls.
Arguments Locked {V} calls.
Arguments Loaded {V} calls r.
Arguments Stored {V} calls.

(** The threads take turns, one whole call each. *)
Definition call_by_call (n calls : nat) : list thread_id :=
  mjoin (replicate calls (t ← seq 0 n; replicate 4 t)).

End Threads.

(** ** The scenarios of the unit tests *)

Module Tests.
Import Types Mutex Wrapper Program.

(** [int], within its range. *)
Definition int := Z.
Bind Scope Z_scope with int.

(** Exceptions are told apart by what they carry. *)
Definition exception := string.

(** [void increment_value( int& value ) { value += 1; }] *)
Definition increment_value : int -> int * call_result unit exception :=
  fun value => ((value + 1)%Z, Returned tt).

Definition increment_value_type : type :=
  TFun TVoid [TLRef TInt] unqualified.

(** [int get_incremented_value( const int& value ) { return value + 1; }] *)
Definition get_incremented_value : int -> call_result int exception :=
  fun value => Returned (value + 1)%Z.

Definition get_incremented_value_type : type :=
  TFun TInt [TLRef (TConst TInt)] unqualified.

(** A function that gives up after it has written:
    [void ( int& value ) { value += 1; throw e; }] *)
Definition increment_and_throw (e : exception)
  : int -> int * call_result unit exception :=
  fun value => ((value + 1)%Z, Raised e).

(** [int ( const int& value ) { throw e; }] *)
Definition refuse_to_read (e : exception) : int -> call_result int exception :=
  fun _ => Raised e.

(** [int ( int& value ) { return value++; }] *)
Definition post_increment : int -> int * call_result int exception :=
  fun value => ((value + 1)%Z, Returned value).

(** The closure types of the lambda expressions used below, by a name for
    each:

      ref_lambda        []( int& value ) { value += 1; }
      cref_lambda       []( const int& value ) { return value + 1; }
      mutable_lambda    [n = 0]( int& value ) mutable { value += ++n; }
      generic_lambda    []( auto& value ) { value += 1; }
      value_lambda      []( int value ) { return value + 1; }
      nullary_lambda    [] { return 1; }
      binary_lambda     []( int& a, int& b ) { a += b; }
      noexcept_lambda   []( int& value ) noexcept { value += 1; } *)
Definition closures : class_env :=
  fun name =>
    if decide (name = "ref_lambda") then
      [CallOperator false TVoid [TLRef TInt] const_member]
    else if decide (name = "cref_lambda") then
      [CallOperator false TInt [TLRef (TConst TInt)] const_member]
    else if decide (name = "mutable_lambda") then
      [CallOperator false TVoid [TLRef TInt] unqualified]
    else if decide (name = "generic_lambda") then
      [CallOperator true TVoid [TLRef (TParam "auto")] const_member]
    else if decide (name = "value_lambda") then
      [CallOperator false TInt [TInt] const_member]
    else if decide (name = "nullary_lambda") then
      [CallOperator false TInt [] const_member]
    else if decide (name = "binary_lambda") then
      [CallOperator false TVoid [TLRef TInt; TLRef TInt] const_member]
    else if decide (name = "noexcept_lambda") then
      [CallOperator false TVoid [TLRef TInt]
         (FnQualifiers true false RefNone true false)]
    else [].

(** A lambda expression written in the argument list. *)
Definition lambda (name : string) : argument := Argument (TClass name) PRValue.

(** A closure object that has a name: [auto f = ...; wrapper.with_lock( f )]. *)
Definition named (name : string) : argument := Argument (TClass name) LValue.

(** [f] for a function [f], and [&f]. *)
Definition function (t : type) : argument := Argument t LValue.
Definition address_of (t : type) : argument := Argument (TPtr t) PRValue.

(** [zdm::lock_wrapper<int> wrapper( v );] *)
Definition wrapper (v : int) : basic_lock_wrapper int := construct v.

(** The thread that runs the single-threaded test cases. *)
Definition main : thread_id := 0.

End Tests.

(** * Properties *)

Import Types Mutex.

(** ** Locks give back what they took *)

Section lock_facts.

(** Destroying a lock undoes its construction, whatever the lock class
    and whoever else owns a share of the mutex. *)
Lemma destroy_construct L t m m1 :
  construct L t m = Ok m1 -> destroy L t m1 = Ok m.
Proof.
  destruct L as [cls k], m as [o rs].
  unfold construct, destroy, perform, lock, lock_shared; simpl.
  intros H.
  destruct cls, k; simpl in H;
    repeat match type of H with
      | context [match ?x with _ => _ end] => destruct x eqn:?; simpl in H
      end;
    simplify_eq; simpl.
  all: unfold unlock, unlock_shared; simpl.
  all: rewrite ?decide_True, ?bool_decide_eq_true_2
    by (done || (apply elem_of_cons; by left)).
  all: done.
Qed.

Lemma obtains_construct L t m :
  obtains L t m = true -> exists m1, construct L t m = Ok m1.
Proof. unfold obtains. destruct (construct L t m); eauto; discriminate. Qed.

(** A thread that can lock exclusively can lock in shared mode too. *)
Lemma obtains_unique_shared M t m :
  obtains (unique_lock (mutex_traits M)) t m = true ->
  obtains (shared_lock (mutex_traits M)) t m = true.
Proof.
  destruct M; simpl; try done.
  unfold obtains, construct; simpl. unfold lock, lock_shared.
  destruct m as [[[o n]|] rs]; simpl.
  - destruct (decide (o = t)); done.
  - destruct rs; simpl; [done|]. by destruct (bool_decide _).
Qed.

End lock_facts.

(** ** with_lock, run by one thread *)

Section with_lock_facts.
Import Wrapper.
Context {V E : Type}.
Variable AMutexType : mutex_kind.
Variable self : thread_id.

Local Abbreviation wrapper_t := (basic_lock_wrapper V).
Local Abbreviation unique := (unique_lock (mutex_traits AMutexType)).
Local Abbreviation shared := (shared_lock (mutex_traits AMutexType)).

(** A block that holds a lock around a body which leaves the mutex alone:
    either the lock is not obtained and the body never starts, or the
    body runs between the two calls on the mutex and the mutex ends as
    it began. *)
Lemma scoped_runs {A} (L : lock_type) (body : action V E A)
    (w : wrapper_t) r v tr :
  (forall m, body (LockWrapper m (m_contained w))
             = Finished r (LockWrapper m v) tr) ->
  scoped self L body w =
    match Mutex.construct L self (m_mutex w) with
    | Ok _ =>
        Finished r (LockWrapper (m_mutex w) v)
          (OnMutex (constructor_call (lock_class L)) :: tr
             ++ [OnMutex (destructor_call (lock_class L))])
    | Waits => Blocked
    | Undefined => UndefinedBehaviour
    end.
Proof.
  intros Hbody. unfold scoped, lock_constructor, lock_destructor, on_mutex.
  destruct (Mutex.construct L self (m_mutex w)) as [m1| |] eqn:Hc; try done.
  simpl. rewrite Hbody. simpl.
  by rewrite (destroy_construct _ _ _ _ Hc).
Qed.

Lemma with_lock_runs {R} (f : V -> V * call_result R E) (w : wrapper_t) :
  with_lock AMutexType self f w =
    match Mutex.construct unique self (m_mutex w) with
    | Ok _ =>
        Finished (f (m_contained w)).2
          (LockWrapper (m_mutex w) (f (m_contained w)).1)
          [OnMutex CallLock; Invoke (m_contained w); OnMutex CallUnlock]
    | Waits => Blocked
    | Undefined => UndefinedBehaviour
    end.
Proof.
  unfold with_lock, with_lock_value_arm.
  rewrite (scoped_runs _ _ w (f (m_contained w)).2 (f (m_contained w)).1
             [Invoke (m_contained w)]).
  - by destruct AMutexType.
  - intros m. unfold bind, call_mutable, ret; simpl.
    by destruct (f (m_contained w)) as [v' [r|e]].
Qed.

Lemma with_lock_const_runs {R} (f : V -> call_result R E) (w : wrapper_t) :
  with_lock_const AMutexType self f w =
    match Mutex.construct shared self (m_mutex w) with
    | Ok _ =>
        Finished (f (m_contained w)) w
          [OnMutex (constructor_call (lock_class shared));
           Invoke (m_contained w);
           OnMutex (destructor_call (lock_class shared))]
    | Waits => Blocked
    | Undefined => UndefinedBehaviour
    end.
Proof.
  unfold with_lock_const, with_lock_const_value_arm.
  rewrite (scoped_runs _ _ w (f (m_contained w)) (m_contained w)
             [Invoke (m_contained w)]).
  - by destruct w.
  - intros m. unfold bind, call_const, ret; simpl.
    by destruct (f (m_contained w)) as [r|e].
Qed.

Lemma with_lock_const_aliased_runs {R}
    (f : V -> V * call_result R E) (w : wrapper_t) :
  with_lock_const_aliased AMutexType self f w =
    match Mutex.construct shared self (m_mutex w) with
    | Ok _ =>
        Finished (f (m_contained w)).2
          (LockWrapper (m_mutex w) (f (m_contained w)).1)
          [OnMutex (constructor_call (lock_class shared));
           Invoke (m_contained w);
           OnMutex (destructor_call (lock_class shared))]
    | Waits => Blocked
    | Undefined => UndefinedBehaviour
    end.
Proof.
  unfold with_lock_const_aliased.
  rewrite (scoped_runs _ _ w (f (m_contained w)).2 (f (m_contained w)).1
             [Invoke (m_contained w)]).
  - done.
  - intros m. unfold bind, call_mutable, ret; simpl.
    by destruct (f (m_contained w)) as [v' [r|e]].
Qed.

(** The arm for [void] does what the other arm does at the type [unit]. *)
Lemma with_lock_void_arm_agrees (f : V -> V * call_result unit E) w :
  with_lock_void_arm AMutexType self f w = with_lock AMutexType self f w.
Proof.
  unfold with_lock_void_arm, with_lock, with_lock_value_arm, scoped, bind,
    call_mutable, ret.
  destruct (lock_constructor self unique w) as [r1 w1 tr1| |]; try done.
  by destruct (f (m_contained w1)) as [v [[]|e]].
Qed.

Lemma with_lock_const_void_arm_agrees (f : V -> call_result unit E) w :
  with_lock_const_void_arm AMutexType self f w
  = with_lock_const AMutexType self f w.
Proof.
  unfold with_lock_const_void_arm, with_lock_const, with_lock_const_value_arm,
    scoped, bind, call_const, ret.
  destruct (lock_constructor self shared w) as [r1 w1 tr1| |]; try done.
  by destruct (f (m_contained w1)) as [[]|e].
Qed.

End with_lock_facts.

(** ** The claims about a single thread *)

Section single_thread.
Import Wrapper Tests.

(** C2. An operation that raises an error inside with_lock: when the lock
    is obtained, the call ends with that very error, after the lock has
    been released again (the mutex is in the state it had before the
    call, and the last thing done is the unlock); what the operation had
    written before it raised stays written. A following call on the same
    wrapper, through either overload, obtains the lock and finishes. The
    same holds for the const overload, where a following call through the
    const overload finishes. *)
Theorem error_leaves_lock_released :
  forall (V E R : Type) (AMutexType : mutex_kind) (self : thread_id)
         (w : basic_lock_wrapper V) (e : E),
    let unique := unique_lock (mutex_traits AMutexType) in
    let shared := shared_lock (mutex_traits AMutexType) in
    let shared_trace :=
      [OnMutex (constructor_call (lock_class shared));
       Invoke (m_contained w);
       OnMutex (destructor_call (lock_class shared))] in
    (forall (f : V -> V * call_result R E),
        obtains unique self (m_mutex w) = true ->
        (f (m_contained w)).2 = Raised e ->
        let w' := LockWrapper (m_mutex w) (f (m_contained w)).1 in
        with_lock AMutexType self f w
        = Finished (Raised e) w'
            [OnMutex CallLock; Invoke (m_contained w); OnMutex CallUnlock]
        /\ (forall (R' : Type) (g : V -> V * call_result R' E),
               with_lock AMutexType self g w'
               = Finished (g (m_contained w')).2
                   (LockWrapper (m_mutex w) (g (m_contained w')).1)
                   [OnMutex CallLock; Invoke (m_contained w'); OnMutex CallUnlock])
        /\ (forall (R' : Type) (g : V -> call_result R' E),
               with_lock_const AMutexType self g w'
               = Finished (g (m_contained w')) w'
                   [OnMutex (constructor_call (lock_class shared));
                    Invoke (m_contained w');
                    OnMutex (destructor_call (lock_class shared))]))
    /\ (forall (f : V -> call_result R E),
           obtains shared self (m_mutex w) = true ->
           f (m_contained w) = Raised e ->
           with_lock_const AMutexType self f w
           = Finished (Raised e) w shared_trace
           /\ (forall (R' : Type) (g : V -> call_result R' E),
                  with_lock_const AMutexType self g w
                  = Finished (g (m_contained w)) w shared_trace)).
Proof.
  intros V E R M self w e unique shared shared_trace.
  subst unique shared shared_trace. split.
  - intros f Hobt Hraise w'.
    destruct (obtains_construct _ _ _ Hobt) as [m1 Hc].
    split; [|split].
    + rewrite with_lock_runs. rewrite Hc. by rewrite Hraise.
    + intros R' g. rewrite with_lock_runs. simpl. by rewrite Hc.
    + intros R' g. rewrite with_lock_const_runs. simpl.
      destruct (obtains_construct _ _ _ (obtains_unique_shared _ _ _ Hobt))
        as [m2 Hc2].
      by rewrite Hc2.
  - intros f Hobt Hraise.
    destruct (obtains_construct _ _ _ Hobt) as [m1 Hc].
    split.
    + rewrite with_lock_const_runs. by rewrite Hc, Hraise.
    + intros R' g. rewrite with_lock_const_runs. by rewrite Hc.
Qed.

Lemma error_leaves_lock_released_witness :
  with_lock std_mutex main (increment_and_throw "boom") (wrapper 42)
  = Finished (Raised "boom"%string) (wrapper 43)
      [OnMutex CallLock; Invoke 42%Z; OnMutex CallUnlock]
  /\ with_lock std_mutex main increment_value (wrapper 43)
     = Finished (Returned tt) (wrapper 44)
         [OnMutex CallLock; Invoke 43%Z; OnMutex CallUnlock]
  /\ (exists tr,
         with_lock_const std_shared_mutex main (refuse_to_read "boom") (wrapper 42)
         = Finished (Raised "boom"%string) (wrapper 42) tr)
  /\ (exists tr,
         with_lock_const std_shared_mutex main get_incremented_value (wrapper 42)
         = Finished (Returned 43%Z) (wrapper 42) tr).
Proof.
  destruct (error_leaves_lock_released int exception unit std_mutex main
              (wrapper 42) "boom"%string) as [Hu _].
  destruct (Hu (increment_and_throw "boom") eq_refl eq_refl) as (H1 & H2 & _).
  destruct (error_leaves_lock_released int exception int std_shared_mutex main
              (wrapper 42) "boom"%string) as [_ Hs].
  destruct (Hs (refuse_to_read "boom") eq_refl eq_refl) as (H3 & H4).
  split; [exact H1|]. split; [exact (H2 unit increment_value)|].
  split; [eexists; exact H3|]. eexists. exact (H4 int get_incremented_value).
Defined.

(** C3. The const overload leaves the wrapper as it found it: whenever
    the lock is obtained, the stored value and the mutex are afterwards
    what they were before, the function has been called once on the
    stored value, and what it returned or raised is handed on, in
    either arm of if constexpr. On a wrapper holding 42, a function
    returning value + 1 gives 43 and a following unsynchronized read
    gives 42. *)
Theorem read_only_leaves_value :
  (forall (V E R : Type) (AMutexType : mutex_kind) (self : thread_id)
          (f : V -> call_result R E) (w : basic_lock_wrapper V),
      let shared := shared_lock (mutex_traits AMutexType) in
      with_lock_const AMutexType self f w
      = match Mutex.construct shared self (m_mutex w) with
        | Ok _ =>
            Finished (f (m_contained w)) w
              [OnMutex (constructor_call (lock_class shared));
               Invoke (m_contained w);
               OnMutex (destructor_call (lock_class shared))]
        | Waits => Blocked
        | Undefined => UndefinedBehaviour
        end)
  /\ (forall (V E : Type) (AMutexType : mutex_kind) (self : thread_id)
            (f : V -> call_result unit E) (w : basic_lock_wrapper V),
         with_lock_const_void_arm AMutexType self f w
         = with_lock_const AMutexType self f w)
  /\ (forall AMutexType : mutex_kind,
         with_lock_const AMutexType main get_incremented_value (wrapper 42)
         = Finished (Returned 43%Z) (wrapper 42)
             [OnMutex (constructor_call
                         (lock_class (shared_lock (mutex_traits AMutexType))));
              Invoke 42%Z;
              OnMutex (destructor_call
                         (lock_class (shared_lock (mutex_traits AMutexType))))]
         /\ bind (with_lock_const AMutexType main get_incremented_value)
              (fun _ => deref) (wrapper 42)
            = Finished (Returned 42%Z) (wrapper 42)
                [OnMutex (constructor_call
                            (lock_class (shared_lock (mutex_traits AMutexType))));
                 Invoke 42%Z;
                 OnMutex (destructor_call
                            (lock_class (shared_lock (mutex_traits AMutexType))))]).
Proof.
  split; [|split].
  - intros. apply with_lock_const_runs.
  - intros. apply with_lock_const_void_arm_agrees.
  - intros M. unfold bind. rewrite with_lock_const_runs.
    by destruct M.
Qed.

(** C4. The non-const overload applies the function to the stored value
    in place and hands on what the function returned, a void result (the
    unit value) included: whenever the lock is obtained, the wrapper
    afterwards holds the value the function left, the mutex is as
    before, and the result of the call is the result of the function; the
    arm of if constexpr for void does the same as the other arm. On
    a wrapper holding 42, an incrementing function leaves 43, which a
    following unsynchronized read returns; a function that returns the
    old value and increments hands 42 on and leaves 43. *)
Theorem mutable_applies_in_place :
  (forall (V E R : Type) (AMutexType : mutex_kind) (self : thread_id)
          (f : V -> V * call_result R E) (w : basic_lock_wrapper V),
      with_lock AMutexType self f w
      = match Mutex.construct (unique_lock (mutex_traits AMutexType))
                self (m_mutex w) with
        | Ok _ =>
            Finished (f (m_contained w)).2
              (LockWrapper (m_mutex w) (f (m_contained w)).1)
              [OnMutex CallLock; Invoke (m_contained w); OnMutex CallUnlock]
        | Waits => Blocked
        | Undefined => UndefinedBehaviour
        end)
  /\ (forall (V E : Type) (AMutexType : mutex_kind) (self : thread_id)
            (f : V -> V * call_result unit E) (w : basic_lock_wrapper V),
         with_lock_void_arm AMutexType self f w = with_lock AMutexType self f w)
  /\ (forall AMutexType : mutex_kind,
         with_lock AMutexType main increment_value (wrapper 42)
         = Finished (Returned tt) (wrapper 43)
             [OnMutex CallLock; Invoke 42%Z; OnMutex CallUnlock]
         /\ bind (with_lock AMutexType main increment_value)
              (fun _ => deref) (wrapper 42)
            = Finished (Returned 43%Z) (wrapper 43)
                [OnMutex CallLock; Invoke 42%Z; OnMutex CallUnlock]
         /\ with_lock AMutexType main post_increment (wrapper 42)
            = Finished (Returned 42%Z) (wrapper 43)
                [OnMutex CallLock; Invoke 42%Z; OnMutex CallUnlock]).
Proof.
  split; [|split].
  - intros. apply with_lock_runs.
  - intros. apply with_lock_void_arm_agrees.
  - intros M. unfold bind. rewrite !with_lock_runs.
    by destruct M.
Qed.

(** C7. Round trip: a wrapper constructed with a value, read at once
    through operator* (or a member of it through operator->), gives that
    value; the read makes no call on the mutex, which is unlocked from
    construction on, and changes nothing. *)
Theorem construct_then_deref :
  forall (V E : Type) (v : V),
    deref (E := E) (construct v) = Finished (Returned v) (construct v) []
    /\ m_mutex (construct v) = unlocked
    /\ (forall (A : Type) (member : V -> A),
           arrow (E := E) member (construct v)
           = Finished (Returned (member v)) (construct v) []).
Proof. done. Qed.

End single_thread.

(** ** The table of mutex_traits *)

(** C8. The policy table: std::mutex and std::recursive_mutex lock with
    scoped_lock in both modes, std::shared_mutex with unique_lock in
    exclusive and shared_lock in shared mode, each on its own mutex type;
    the constructor of the shared-mode lock calls lock_shared() for
    std::shared_mutex alone and lock() otherwise, the exclusive one always
    lock(); and the aliases are three, one per mutex. *)
Theorem mutex_policy_table :
  mutex_traits std_mutex
  = MutexTraits std_mutex
      (LockType std_scoped_lock std_mutex) (LockType std_scoped_lock std_mutex)
  /\ mutex_traits std_shared_mutex
     = MutexTraits std_shared_mutex
         (LockType std_unique_lock std_shared_mutex)
         (LockType std_shared_lock std_shared_mutex)
  /\ mutex_traits std_recursive_mutex
     = MutexTraits std_recursive_mutex
         (LockType std_scoped_lock std_recursive_mutex)
         (LockType std_scoped_lock std_recursive_mutex)
  /\ (forall M,
         mode_of (constructor_call (lock_class (unique_lock (mutex_traits M))))
         = Exclusive
         /\ (mode_of (constructor_call (lock_class (shared_lock (mutex_traits M))))
             = Shared <-> M = std_shared_mutex)
         /\ (unique_lock (mutex_traits M) = shared_lock (mutex_traits M)
             <-> M <> std_shared_mutex))
  /\ alias_mutex <$> all_aliases
     = [std_mutex; std_shared_mutex; std_recursive_mutex]
  /\ (forall a, a ∈ all_aliases)
  /\ length all_aliases = 3.
Proof.
  repeat split; try done.
  all: try (destruct M; simpl; intros; congruence).
  destruct a; unfold all_aliases; rewrite !elem_of_cons; tauto.
Qed.

(** ** The defaulted default constructor *)

Section initialization.
Import Init.

(** Induction on a type together with the types of its members. *)
Lemma object_type_members_ind (P : object_type -> Prop) :
  P Scalar ->
  (forall user_provided ms,
      Forall (fun m => P m.2) ms -> P (Class user_provided ms)) ->
  forall T, P T.
Proof.
  intros HS HC. fix IH 1. intros [|user_provided ms].
  - exact HS.
  - apply HC. revert ms.
    refine (fix members l : Forall (fun m => P m.2) l :=
              match l with
              | [] => List.Forall_nil _
              | m :: rest =>
                  @List.Forall_cons _ (fun m => P m.2) m rest
                    (IH m.2) (members rest)
              end).
Qed.

(** Zeroed storage changes what default-initialization yields only where
    it would leave no value. *)
Lemma default_initialize_fills zeroed T :
  fills (default_initialize true T) (default_initialize zeroed T) = true.
Proof.
  induction T as [|user_provided ms IH] using object_type_members_ind.
  - by destruct zeroed.
  - cbn [default_initialize fills].
    induction IH as [|[given U] ms HU _ IH]; [done|].
    cbn [map]. rewrite IH, andb_true_r.
    destruct given; [done|]. exact HU.
Qed.

Lemma value_initialize_not_user_provided T :
  is_user_provided T = false ->
  value_initialize T = default_initialize true T.
Proof. by destruct T as [|[] ms]. Qed.

Lemma value_initialize_user_provided T :
  is_user_provided T = true ->
  value_initialize T = default_initialize false T.
Proof. by destruct T as [|[] ms]. Qed.

Lemma construct_members d i T :
  construct d i T
  = Members [Members [Given]; default_initialize (zeroed_before d i) T].
Proof. by destruct i. Qed.

End initialization.

(** C5, as the code has it. With [basic_lock_wrapper() = default;] and no
    initializer on its members, a wrapper constructed with no arguments has
    its mutex constructed and its contained value default-initialized, in
    storage that has been zeroed when the wrapper is value-initialized
    ([W w{};]) or has static or thread storage duration. In zeroed storage
    the contained value is the value-initialized one for every type without
    a user-provided default constructor, and for the others it differs from
    it only by a zero where the constructor gives no value. In storage that
    has not been zeroed ([W w;] in a block, [new W]) it is the
    value-initialized one when the type has a user-provided default
    constructor. *)
Theorem default_construction :
  forall (d : Init.storage_duration) (i : Init.initializer)
         (T : Init.object_type),
    Init.m_mutex (Init.construct d i T)
    = Some (Init.value_initialize Init.mutex_type)
    /\ Init.m_contained (Init.construct d i T)
       = Some (Init.default_initialize (Init.zeroed_before d i) T)
    /\ (Init.zeroed_before d i = true ->
        (exists contained,
            Init.m_contained (Init.construct d i T) = Some contained
            /\ Init.fills contained (Init.value_initialize T) = true)
        /\ (Init.is_user_provided T = false ->
            Init.m_contained (Init.construct d i T)
            = Some (Init.value_initialize T)))
    /\ (Init.zeroed_before d i = false ->
        Init.is_user_provided T = true ->
        Init.m_contained (Init.construct d i T)
        = Some (Init.value_initialize T)).
Proof.
  intros d i T. rewrite construct_members. cbn [Init.m_mutex Init.m_contained].
  split; [done|]. split; [done|]. split.
  - intros ->. split.
    + eexists. split; [done|].
      destruct (Init.is_user_provided T) eqn:HT.
      * rewrite (value_initialize_user_provided T HT).
        apply default_initialize_fills.
      * rewrite (value_initialize_not_user_provided T HT).
        apply default_initialize_fills.
    + intros HT. by rewrite (value_initialize_not_user_provided T HT).
  - intros -> HT. by rewrite (value_initialize_user_provided T HT).
Qed.

Lemma default_construction_witness :
  Init.m_contained (Init.construct Init.Static Init.NoInitializer Init.Scalar)
  = Some Init.Zero
  /\ Init.m_contained
       (Init.construct Init.Automatic Init.NoInitializer
          (Init.Class true [(true, Init.Scalar); (false, Init.Scalar)]))
     = Some (Init.Members [Init.Given; Init.Indeterminate]).
Proof.
  split.
  - exact (proj2 (proj1 (proj2 (proj2
             (default_construction Init.Static Init.NoInitializer Init.Scalar)))
             eq_refl) eq_refl).
  - exact (proj2 (proj2 (proj2
             (default_construction Init.Automatic Init.NoInitializer
                (Init.Class true [(true, Init.Scalar); (false, Init.Scalar)]))))
             eq_refl eq_refl).
Defined.

(** C5, as the spec has it, fails: [zdm::lock_wrapper<int> w;] in a block,
    or [new zdm::lock_wrapper<int>], leaves the int indeterminate, where
    value-initialization would make it zero. *)
Lemma default_construction_int_indeterminate :
  Init.m_contained
    (Init.construct Init.Automatic Init.NoInitializer Init.Scalar)
  = Some Init.Indeterminate
  /\ Init.m_contained
       (Init.construct Init.Dynamic Init.NoInitializer Init.Scalar)
     = Some Init.Indeterminate
  /\ Init.value_initialize Init.Scalar = Init.Zero
  /\ Init.m_contained
       (Init.construct Init.Automatic Init.NoInitializer Init.Scalar)
     <> Some (Init.value_initialize Init.Scalar).
Proof. repeat split; done. Qed.
(** ** Which callables with_lock accepts *)

Section classification.
Import Wrapper Program Tests.
Variable env : class_env.
Variable T : type.

Local Abbreviation Tref := (add_lvalue_reference T).
Local Abbreviation Tcref := (add_lvalue_reference (add_const T)).

Lemma sole_parameter_is_true P tr :
  sole_parameter_is P tr = true <->
  exists r, tr = Some (Traits r [P]).
Proof.
  unfold sole_parameter_is. split.
  - destruct tr as [[r [|a [|]]]|]; try done.
    intros ->%bool_decide_eq_true. eauto.
  - intros [r ->]. by apply bool_decide_eq_true.
Qed.

(** Either concept holds only of a callable declared with that one
    parameter, when it is a callable at all. *)
Lemma concept_declared P F :
  sole_parameter_is P (function_traits F)
  || sole_parameter_is P (call_operator_pointer env F ≫= function_traits)
  = true ->
  is_Some (call_return_type env F) ->
  declared_parameters env F = Some [P].
Proof.
  intros [H|H]%orb_true_iff; apply sole_parameter_is_true in H as [r H];
    revert H;
    unfold function_traits, call_operator_pointer, call_return_type,
      declared_parameters.
  - destruct F as [| | | | | | |F|F|F| |cls F]; try done;
      try (destruct F; try done); simpl;
      repeat case_decide; try done; by intros [= _ <-].
  - destruct F as [| | | | |c|F| | | | |]; try done; simpl.
    + destruct (env c) as [|op [|]]; try done.
      destruct (op_template op); try done. simpl.
      case_decide; try done. by intros [= _ <-].
    + destruct F; try done.
      destruct (env name) as [|op [|]]; try done.
      destruct (op_template op); try done. simpl.
      case_decide; try done. by intros [= _ <-].
Qed.

Lemma declared_deduce_auto a ps :
  declared_parameters env (deduce_auto a) = Some ps ->
  declared_parameters env (arg_type a) = Some ps.
Proof.
  unfold deduce_auto. destruct (arg_category a); try done.
  unfold declared_parameters. simpl. by destruct (arg_type a).
Qed.

(** An overload is selected only for a callable declared with the one
    parameter of that overload. *)
Lemma select_overload_declared h a o :
  select_overload env T h a = Some o ->
  declared_parameters env (arg_type a)
  = Some [match o with
          | UniqueOverload => Tref
          | SharedOverload => Tcref
          end].
Proof.
  unfold select_overload. case_bool_decide as Hcall; [|done].
  intros H. apply declared_deduce_auto.
  destruct (allows_mutation h && _) eqn:Hu.
  - apply andb_true_iff in Hu as [_ Hu]. simplify_eq.
    by apply concept_declared.
  - destruct (unary_const_reference_function _ _ _) eqn:Hs; simplify_eq.
    by apply concept_declared.
Qed.

(** For a callable passed in one of the recognised ways, the parameter
    list decides. *)
Lemma select_overload_as_passed h a ps :
  parameters_as_passed env a = Some ps ->
  select_overload env T h a = overload_for T h ps.
Proof.
  unfold parameters_as_passed, select_overload, overload_for,
    unary_reference_function, unary_const_reference_function,
    mutable_reference, const_reference, deduce_auto, call_return_type,
    call_operator_pointer, sole_parameter_is.
  destruct a as [F cat]; simpl.
  assert (Hsole : forall P,
             match ps with [a] => bool_decide (a = P) | _ => false end
             = bool_decide (ps = [P])).
  { intros P.
    destruct ps as [|p [|]]; simpl; try done;
      try by rewrite bool_decide_eq_false_2.
    apply bool_decide_ext. split; congruence. }
  destruct F as [| | | | |c| | | |F|r qs q|]; try done.
  - (* a closure *)
    destruct cat; try done; simpl;
      destruct (env c) as [|op [|]]; try done;
      destruct (op_template op); try done; case_decide as Hq; try done;
      intros [= <-]; simpl; rewrite Hq; simpl;
      by rewrite !Hsole.
  - (* a pointer to a function *)
    destruct F; try done.
    destruct cat; try done; case_decide; try done; intros [= <-]; simpl;
      rewrite decide_True by done; simpl;
      by rewrite !Hsole, !orb_false_r.
  - (* the name of a function *)
    destruct cat; try done; case_decide; try done; intros [= <-]; simpl.
    rewrite decide_True by done; simpl.
    by rewrite !Hsole, !orb_false_r.
Qed.

End classification.


Section classification_claims.
Import Wrapper Program Tests.

(** C6. A callable of invalid shape is rejected when the call is
    compiled: with no parameter, with more than one, with a single
    parameter that is neither [T &] nor [const T &] (a [T] taken by value
    among them), or with no single parameter list at all, no overload of
    with_lock is selected, whatever the wrapper and however the callable
    is passed. The call is ill-formed; there is nothing to run, so no
    lock is taken and the value is not touched. *)
Theorem invalid_shape_rejected :
  forall (V E R : Type) (env : class_env) (T : type)
         (AMutexType : mutex_kind) (self : thread_id)
         (h : handle) (c : callable V E R),
    valid_shape env T (passed_as c) = false ->
    select_overload env T h (passed_as c) = None
    /\ call_with_lock env T AMutexType self h c = IllFormed.
Proof.
  intros V E R env T M self h c Hshape.
  assert (Hnone : select_overload env T h (passed_as c) = None).
  { destruct (select_overload env T h (passed_as c)) as [o|] eqn:Hsel; [|done].
    apply select_overload_declared in Hsel.
    unfold valid_shape, mutable_reference, const_reference in Hshape.
    apply orb_false_iff in Hshape as [H1 H2].
    apply bool_decide_eq_false in H1, H2. by destruct o. }
  split; [done|]. unfold call_with_lock. by rewrite Hnone.
Qed.

Lemma invalid_shape_rejected_witness :
  (forall h,
      call_with_lock (V := int) (E := exception) (R := int)
        closures TInt std_mutex main h
        (Callable (lambda "value_lambda") (ReadOnly get_incremented_value))
      = IllFormed)
  /\ (forall h, select_overload closures TInt h (lambda "nullary_lambda") = None)
  /\ (forall h, select_overload closures TInt h (lambda "binary_lambda") = None).
Proof.
  split; [|split]; intros h.
  - exact (proj2 (invalid_shape_rejected int exception int closures TInt
                    std_mutex main h
                    (Callable (lambda "value_lambda")
                       (ReadOnly get_incremented_value)) eq_refl)).
  - exact (proj1 (invalid_shape_rejected int exception int closures TInt
                    std_mutex main h
                    (Callable (lambda "nullary_lambda")
                       (ReadOnly get_incremented_value)) eq_refl)).
  - exact (proj1 (invalid_shape_rejected int exception int closures TInt
                    std_mutex main h
                    (Callable (lambda "binary_lambda")
                       (ReadOnly get_incremented_value)) eq_refl)).
Defined.

(** C10. A closure is recognised only through a call operator that is
    const and not a template: whenever with_lock accepts an object of a
    class type, the class has exactly one call operator, not a template,
    with [const] as its only qualifier. So a closure whose call operator
    is not const (a lambda declared mutable) or is a template (a generic
    lambda) satisfies neither concept and is rejected, also when it is
    declared with a reference to the contained type as its one
    parameter. *)
Theorem closure_needs_const_call_operator :
  forall (env : class_env) (T : type) (c : string) (cat : value_category),
    let a := Argument (TClass c) cat in
    (forall h,
        select_overload env T h a <> None ->
        exists op,
          env c = [op] /\ op_template op = false
          /\ op_quals op = const_member)
    /\ (forall op,
           env c = [op] ->
           op_template op = true \/ fq_const (op_quals op) = false ->
           unary_reference_function env (deduce_auto a) T = false
           /\ unary_const_reference_function env (deduce_auto a) T = false
           /\ forall h, select_overload env T h a = None).
Proof.
  intros env T c cat a.
  assert (Hconcepts : forall P,
             sole_parameter_is P (function_traits (deduce_auto a))
             || sole_parameter_is P
                  (call_operator_pointer env (deduce_auto a) ≫= function_traits)
             = true ->
             exists op, env c = [op] /\ op_template op = false
                        /\ op_quals op = const_member).
  { intros P. subst a. unfold deduce_auto, call_operator_pointer; simpl.
    destruct cat; simpl; try done;
      destruct (env c) as [|op [|]]; try done;
      destruct (op_template op) eqn:Ht; try done; simpl;
      case_decide; try done; eauto. }
  assert (Honly : forall h,
             select_overload env T h a <> None ->
             exists op, env c = [op] /\ op_template op = false
                        /\ op_quals op = const_member).
  { intros h. unfold select_overload.
    case_bool_decide; [|done].
    destruct (allows_mutation h && _) eqn:Hu.
    - intros _. apply andb_true_iff in Hu as [_ Hu]. by eapply Hconcepts.
    - destruct (unary_const_reference_function _ _ _) eqn:Hs; [|done].
      intros _. by eapply Hconcepts. }
  split; [done|].
  intros op Hop Hbad.
  assert (Hno : ~ exists op', env c = [op'] /\ op_template op' = false
                              /\ op_quals op' = const_member).
  { intros (op' & Hop' & Ht & Hq). rewrite Hop in Hop'. simplify_eq.
    destruct Hbad as [Hbad|Hbad]; [congruence|]. by rewrite Hq in Hbad. }
  split; [|split].
  - apply not_true_is_false. intros H. by apply Hno, (Hconcepts _ H).
  - apply not_true_is_false. intros H. by apply Hno, (Hconcepts _ H).
  - intros h. destruct (select_overload env T h a) eqn:Hsel; [|done].
    exfalso. apply Hno, (Honly h). by rewrite Hsel.
Qed.

Lemma closure_needs_const_call_operator_witness :
  declared_parameters closures (TClass "mutable_lambda") = Some [TLRef TInt]
  /\ (forall h, select_overload closures TInt h (lambda "mutable_lambda") = None)
  /\ (forall h, select_overload closures TInt h (lambda "generic_lambda") = None)
  /\ exists op, closures "ref_lambda" = [op] /\ op_quals op = const_member.
Proof.
  split; [reflexivity|]. split; [|split].
  - exact (proj2 (proj2 (proj2
             (closure_needs_const_call_operator closures TInt
                "mutable_lambda" PRValue) _ eq_refl (or_intror eq_refl)))).
  - exact (proj2 (proj2 (proj2
             (closure_needs_const_call_operator closures TInt
                "generic_lambda" PRValue) _ eq_refl (or_introl eq_refl)))).
  - destruct (proj1 (closure_needs_const_call_operator closures TInt
                       "ref_lambda" PRValue) MutableHandle)
      as (op & Hop & _ & Hq).
    + vm_compute. discriminate.
    + eauto.
Defined.

End classification_claims.

Section classification_by_parameter.
Import Wrapper Program Tests.

(** C1, as the code has it. For a callable passed as the name of a
    function, as a pointer to a function that is an rvalue, or as an
    rvalue closure whose one call operator is const and not a template
    (all without noexcept or other qualifiers), the parameter list alone
    decides. With [T &] as the one parameter, a non-const wrapper locks
    with mutex_traits::unique_lock: the call takes the lock by lock(),
    calls the function on the stored value and unlocks. With [const T &]
    as the one parameter of a reading function, a const wrapper, and a
    non-const one unless [T &] is the same type, locks with
    mutex_traits::shared_lock in the same way. A function and a closure
    that do the same and have the same parameter are treated alike: the
    two calls compile to the same thing or both fail to compile. *)
Theorem classification_by_parameter :
  forall (V E R : Type) (env : class_env) (T : type)
         (AMutexType : mutex_kind) (self : thread_id)
         (h : handle) (c : callable V E R)
         (ps : list type),
    parameters_as_passed env (passed_as c) = Some ps ->
    let unique := unique_lock (mutex_traits AMutexType) in
    let shared := shared_lock (mutex_traits AMutexType) in
    select_overload env T h (passed_as c) = overload_for T h ps
    /\ (ps = [mutable_reference T] -> h = MutableHandle ->
        exists run,
          call_with_lock env T AMutexType self h c = WellFormed run
          /\ forall w,
              let r := as_mutating (does c) (m_contained w) in
              run w =
                match Mutex.construct unique self (m_mutex w) with
                | Ok _ =>
                    Finished r.2 (LockWrapper (m_mutex w) r.1)
                      [OnMutex CallLock; Invoke (m_contained w);
                       OnMutex CallUnlock]
                | Waits => Blocked
                | Undefined => UndefinedBehaviour
                end)
    /\ (forall f,
           ps = [const_reference T] -> does c = ReadOnly f ->
           h = ConstHandle \/ mutable_reference T <> const_reference T ->
           exists run,
             call_with_lock env T AMutexType self h c = WellFormed run
             /\ forall w,
                 run w =
                   match Mutex.construct shared self (m_mutex w) with
                   | Ok _ =>
                       Finished (f (m_contained w)) w
                         [OnMutex (constructor_call (lock_class shared));
                          Invoke (m_contained w);
                          OnMutex (destructor_call (lock_class shared))]
                   | Waits => Blocked
                   | Undefined => UndefinedBehaviour
                   end)
    /\ (forall c' : callable V E R,
           parameters_as_passed env (passed_as c') = Some ps ->
           does c' = does c ->
           call_with_lock env T AMutexType self h c'
           = call_with_lock env T AMutexType self h c).
Proof.
  intros V E R env T M self h c ps Hps unique shared.
  subst unique shared.
  pose proof (select_overload_as_passed env T h _ _ Hps) as Hsel.
  split; [done|]. split; [|split].
  - intros -> ->. eexists. split.
    + unfold call_with_lock. rewrite Hsel. unfold overload_for. simpl.
      by rewrite bool_decide_eq_true_2.
    + intros w. apply with_lock_runs.
  - intros f -> Hf Hh. eexists. split.
    + unfold call_with_lock. rewrite Hsel, Hf. unfold overload_for.
      rewrite (bool_decide_eq_true_2
                 ([const_reference T] = [const_reference T])) by done.
      destruct Hh as [->|Hne]; simpl; [done|].
      rewrite bool_decide_eq_false_2, andb_false_r; [done|].
      intros [= Heq]. by apply Hne.
    + intros w. apply with_lock_const_runs.
  - intros c' Hps' Hdoes. unfold call_with_lock.
    by rewrite Hsel, (select_overload_as_passed env T h _ _ Hps'), Hdoes.
Qed.

Lemma classification_by_parameter_witness :
  (exists run,
      call_with_lock closures TInt std_mutex main MutableHandle
        (Callable (function increment_value_type) (Mutating increment_value))
      = WellFormed run
      /\ run (wrapper 42)
         = Finished (Returned tt) (wrapper 43)
             [OnMutex CallLock; Invoke 42%Z; OnMutex CallUnlock])
  /\ (exists run,
         call_with_lock closures TInt std_shared_mutex main MutableHandle
           (Callable (address_of get_incremented_value_type)
              (ReadOnly get_incremented_value))
         = WellFormed run
         /\ run (wrapper 42)
            = Finished (Returned 43%Z) (wrapper 42)
                [OnMutex CallLockShared; Invoke 42%Z; OnMutex CallUnlockShared])
  /\ call_with_lock closures TInt std_mutex main MutableHandle
       (Callable (lambda "ref_lambda") (Mutating increment_value))
     = call_with_lock closures TInt std_mutex main MutableHandle
         (Callable (function increment_value_type) (Mutating increment_value)).
Proof.
  assert (Hf : parameters_as_passed closures (function increment_value_type)
               = Some [TLRef TInt]) by (vm_compute; reflexivity).
  assert (Hp : parameters_as_passed closures
                 (address_of get_incremented_value_type)
               = Some [TLRef (TConst TInt)]) by (vm_compute; reflexivity).
  assert (Hl : parameters_as_passed closures (lambda "ref_lambda")
               = Some [TLRef TInt]) by (vm_compute; reflexivity).
  pose proof (classification_by_parameter int exception unit closures TInt
                std_mutex main MutableHandle
                (Callable (function increment_value_type)
                   (Mutating increment_value))
                [TLRef TInt] Hf) as Hfunction.
  pose proof (classification_by_parameter int exception int closures TInt
                std_shared_mutex main MutableHandle
                (Callable (address_of get_incremented_value_type)
                   (ReadOnly get_incremented_value))
                [TLRef (TConst TInt)] Hp) as Hpointer.
  cbv zeta in Hfunction, Hpointer.
  destruct Hfunction as (_ & Hunique & _ & Hsame).
  destruct Hpointer as (_ & _ & Hshared & _).
  split; [|split].
  - destruct (Hunique eq_refl eq_refl) as (run & Hrun & Hw).
    exists run. split; [exact Hrun|]. rewrite (Hw (wrapper 42)).
    vm_compute. reflexivity.
  - assert (Hne : mutable_reference TInt <> const_reference TInt)
      by (vm_compute; discriminate).
    destruct (Hshared get_incremented_value eq_refl eq_refl (or_intror Hne))
      as (run & Hrun & Hw).
    exists run. split; [exact Hrun|]. rewrite (Hw (wrapper 42)).
    vm_compute. reflexivity.
  - exact (Hsame (Callable (lambda "ref_lambda") (Mutating increment_value))
             Hl eq_refl).
Defined.

(** C1, as the spec has it, fails. Each of these callables has a
    reference to the contained int as its one parameter, would increment
    it, and is refused by with_lock: a lambda given to a const wrapper, a
    closure and a function pointer that have a name (lvalues), and a
    function declared noexcept. *)
Lemma reference_callables_rejected :
  let increments (a : argument) :=
    Callable (V := int) (E := exception) (R := unit) a
      (Mutating increment_value) in
  let noexcept_function :=
    TFun TVoid [TLRef TInt] (FnQualifiers false false RefNone true false) in
  (declared_parameters closures (TClass "ref_lambda") = Some [TLRef TInt]
   /\ call_with_lock closures TInt std_mutex main ConstHandle
        (increments (lambda "ref_lambda")) = IllFormed)
  /\ call_with_lock closures TInt std_mutex main MutableHandle
       (increments (named "ref_lambda")) = IllFormed
  /\ (declared_parameters closures (TPtr increment_value_type)
      = Some [TLRef TInt]
      /\ call_with_lock closures TInt std_mutex main MutableHandle
           (increments (Argument (TPtr increment_value_type) LValue))
         = IllFormed)
  /\ (declared_parameters closures noexcept_function = Some [TLRef TInt]
      /\ call_with_lock closures TInt std_mutex main MutableHandle
           (increments (function noexcept_function)) = IllFormed).
Proof. cbv zeta. repeat apply conj; vm_compute; reflexivity. Qed.

End classification_by_parameter.

(** ** The unit tests *)

Section unit_tests.
Import Wrapper Program Tests.

(** [wrapper.with_lock( c )] on a [zdm::lock_wrapper<int>] holding [v],
    followed by a read through [operator*]: the result of the call, what
    the read gives, and the calls on the mutex. *)
Local Abbreviation test R c v :=
  (match call_with_lock (V := int) (E := exception) (R := R)
           closures TInt std_mutex main MutableHandle c with
   | WellFormed run =>
       Some (bind run (fun r => bind deref (fun d => ret (r, d))) (wrapper v))
   | IllFormed => None
   end).

(** The five single-threaded test cases, and the two static requirements
    of the third. *)
Lemma unit_tests_pass :
  test unit (Callable (lambda "ref_lambda") (Mutating increment_value)) 42
  = Some (Finished (Returned (tt, 43%Z)) (wrapper 43)
            [OnMutex CallLock; Invoke 42%Z; OnMutex CallUnlock])
  /\ test int (Callable (lambda "cref_lambda") (ReadOnly get_incremented_value)) 42
     = Some (Finished (Returned (43%Z, 42%Z)) (wrapper 42)
               [OnMutex CallLock; Invoke 42%Z; OnMutex CallUnlock])
  /\ (arg_types <$> function_traits get_incremented_value_type
      = Some [TLRef (TConst TInt)]
      /\ test unit (Callable (function increment_value_type)
                      (Mutating increment_value)) 42
         = Some (Finished (Returned (tt, 43%Z)) (wrapper 43)
                   [OnMutex CallLock; Invoke 42%Z; OnMutex CallUnlock]))
  /\ test int (Callable (function get_incremented_value_type)
                 (ReadOnly get_incremented_value)) 42
     = Some (Finished (Returned (43%Z, 42%Z)) (wrapper 42)
               [OnMutex CallLock; Invoke 42%Z; OnMutex CallUnlock])
  /\ test int (Callable (address_of get_incremented_value_type)
                 (ReadOnly get_incremented_value)) 42
     = Some (Finished (Returned (43%Z, 42%Z)) (wrapper 42)
               [OnMutex CallLock; Invoke 42%Z; OnMutex CallUnlock]).
Proof. repeat apply conj; vm_compute; reflexivity. Qed.

End unit_tests.

(** ** Threads incrementing under the lock *)

Section counter_facts.
Import Threads.
Context {V : Type}.
Variable increment : V -> V.
Variable AMutexType : mutex_kind.

Local Abbreviation unique := (unique_lock (mutex_traits AMutexType)).
Local Abbreviation step := (Threads.step increment AMutexType).
Local Abbreviation run := (Threads.run increment AMutexType).
Local Abbreviation invariant := (Threads.invariant increment).

Lemma sum_list_fmap_insert {A} (f : A -> nat) (l : list A) i x y :
l !! i = Some x ->
sum_list (f <$> <[i := y]> l) + f x = sum_list (f <$> l) + f y.
Proof.
revert i. induction l as [|a l IH]; intros [|i] Hi; simplify_eq/=.
- lia.
- specialize (IH i Hi). lia.
Qed.

(** Constructing the exclusive lock on a mutex nobody owns makes the
  caller its only owner. *)
Lemma construct_unique_free t m :
owner m = None -> readers m = [] ->
construct unique t m = Ok (MutexState (Some (t, 0)) []).
Proof.
destruct m as [o rs]; simpl. intros -> ->.
by destruct AMutexType.
Qed.

(** It is obtained only from a mutex that is free or one's own. *)
Lemma construct_unique_owner t m m' o n :
construct unique t m = Ok m' -> owner m = Some (o, n) -> o = t.
Proof.
destruct m as [ow rs]; simpl. intros H ->. revert H.
destruct AMutexType; unfold construct, perform, lock; simpl;
  by case_decide.
Qed.

Lemma construct_unique_faults t m :
construct unique t m = Undefined ->
(exists n, owner m = Some (t, n)) \/ readers m <> [].
Proof.
destruct m as [[[o n]|] [|r rs]]; simpl; intros H; eauto;
  revert H; destruct AMutexType; unfold construct, perform, lock; simpl;
  try case_decide; subst; eauto; done.
Qed.

(** Destroying the lock one holds once frees the mutex. *)
Lemma destroy_unique_owned t m :
owner m = Some (t, 0) -> readers m = [] ->
destroy unique t m = Ok unlocked.
Proof.
destruct m as [o rs]; simpl. intros -> ->.
destruct AMutexType; unfold destroy, perform, unlock; simpl;
  by rewrite decide_True.
Qed.

Lemma invariant_start n calls v :
invariant (Nat.iter (n * calls) increment v) (start n calls v).
Proof.
split; simpl; try done.
- intros t th [-> _]%lookup_replicate. done.
- intros t k r [? _]%lookup_replicate. done.
- unfold increments_due. simpl.
  by rewrite fmap_replicate, sum_list_replicate.
Qed.

(** Two threads inside a call are the same thread. *)
Lemma invariant_exclusion target s t u tht thu :
invariant target s ->
threads s !! t = Some tht -> threads s !! u = Some thu ->
inside tht = true -> inside thu = true -> t = u.
Proof.
intros Hinv Ht Hu Hit Hiu.
pose proof (inv_inside _ _ _ Hinv _ _ Ht Hit) as H1.
pose proof (inv_inside _ _ _ Hinv _ _ Hu Hiu) as H2.
congruence.
Qed.

Lemma lookup_insert_thread (l : list (thread V)) t u th th' :
<[t := th]> l !! u = Some th' ->
(u = t /\ th' = th) \/ (u <> t /\ l !! u = Some th').
Proof.
destruct (decide (t = u)) as [->|Hne].
- intros H. left. split; [done|].
  pose proof (lookup_lt_Some _ _ _ H) as Hlt.
  rewrite length_insert in Hlt.
  rewrite list_lookup_insert_eq in H by done. congruence.
- rewrite list_lookup_insert_ne by done. intros H. right. split; congruence.
Qed.

(** Every step keeps the invariant. *)
Lemma invariant_step target t s s' :
invariant target s -> step t s = Steps s' -> invariant target s'.
Proof.
intros Hinv. unfold Threads.step.
destruct (threads s !! t) as [th|] eqn:Ht; [|done].
pose proof (lookup_lt_Some _ _ _ Ht) as Hlen.
destruct th as [[|n]|n|n r|n]; try done.
- (* the lock is constructed *)
  destruct (construct unique t (mutex s)) as [m| |] eqn:Hc; try done.
  intros [= <-].
  assert (Hfree : owner (mutex s) = None).
  { destruct (owner (mutex s)) as [[o k]|] eqn:Ho; [|done].
    pose proof (construct_unique_owner _ _ _ _ _ Hc Ho) as ->.
    destruct (inv_owner _ _ _ Hinv _ _ Ho) as (th & Hth & Hin).
    rewrite Ht in Hth. by simplify_eq. }
  rewrite (construct_unique_free _ _ Hfree (inv_readers _ _ _ Hinv)) in Hc.
  simplify_eq.
  split; cbn [threads value mutex owner readers].
  + intros u th [[-> ->]|[Hne Hu]]%lookup_insert_thread Hin; [done|].
    pose proof (inv_inside _ _ _ Hinv _ _ Hu Hin). congruence.
  + intros o k [= <- <-]. eexists.
    split; [by apply list_lookup_insert_eq|done].
  + done.
  + intros u k r [[-> ?]|[Hne Hu]]%lookup_insert_thread; [done|].
    by eapply inv_loaded.
  + unfold increments_due; cbn [threads value].
    pose proof (sum_list_fmap_insert pending _ _ _ (Locked n) Ht) as Hsum.
    cbn [pending] in Hsum. rewrite <- (inv_value _ _ _ Hinv).
    unfold increments_due. f_equal.
    lia.
- (* the value is read *)
  intros [= <-].
  pose proof (inv_inside _ _ _ Hinv _ _ Ht eq_refl) as Hown.
  split; cbn [threads value mutex owner readers].
  + intros u th [[-> ->]|[Hne Hu]]%lookup_insert_thread Hin; [done|].
    by eapply inv_inside.
  + intros o k Ho. rewrite Hown in Ho. simplify_eq.
    eexists. split; [by apply list_lookup_insert_eq|done].
  + by eapply inv_readers.
  + intros u k r [[-> ?]|[Hne Hu]]%lookup_insert_thread; [by simplify_eq|].
    by eapply inv_loaded.
  + unfold increments_due; cbn [threads value].
    pose proof (sum_list_fmap_insert pending _ _ _ (Loaded n (value s)) Ht)
      as Hsum.
    cbn [pending] in Hsum. rewrite <- (inv_value _ _ _ Hinv).
    unfold increments_due. f_equal.
    lia.
- (* the incremented value is written *)
  intros [= <-].
  pose proof (inv_inside _ _ _ Hinv _ _ Ht eq_refl) as Hown.
  pose proof (inv_loaded _ _ _ Hinv _ _ _ Ht) as ->.
  split; cbn [threads value mutex owner readers].
  + intros u th [[-> ->]|[Hne Hu]]%lookup_insert_thread Hin; [done|].
    by eapply inv_inside.
  + intros o k Ho. rewrite Hown in Ho. simplify_eq.
    eexists. split; [by apply list_lookup_insert_eq|done].
  + by eapply inv_readers.
  + intros u k r [[-> ?]|[Hne Hu]]%lookup_insert_thread; [done|].
    exfalso. apply Hne.
    by eapply (invariant_exclusion _ _ _ _ _ _ Hinv Hu Ht).
  + unfold increments_due; cbn [threads value].
    pose proof (sum_list_fmap_insert pending _ _ _ (Stored n) Ht) as Hsum.
    cbn [pending] in Hsum. rewrite <- (inv_value _ _ _ Hinv).
    unfold increments_due.
    replace (sum_list (pending <$> threads s))
      with (S (sum_list (pending <$> <[t := Stored n]> (threads s))))
      by lia.
    by rewrite Nat.iter_succ_r.
- (* the lock is destroyed *)
  pose proof (inv_inside _ _ _ Hinv _ _ Ht eq_refl) as Hown.
  rewrite (destroy_unique_owned _ _ Hown (inv_readers _ _ _ Hinv)).
  intros [= <-].
  split; cbn [threads value mutex owner readers].
  + intros u th [[-> ->]|[Hne Hu]]%lookup_insert_thread Hin; [done|].
    exfalso. apply Hne.
    by eapply (invariant_exclusion _ _ _ _ _ _ Hinv Hu Ht).
  + done.
  + done.
  + intros u k r [[-> ?]|[Hne Hu]]%lookup_insert_thread; [done|].
    by eapply inv_loaded.
  + unfold increments_due; cbn [threads value].
    pose proof (sum_list_fmap_insert pending _ _ _ (Outside n) Ht) as Hsum.
    cbn [pending] in Hsum. rewrite <- (inv_value _ _ _ Hinv).
    unfold increments_due. f_equal.
    lia.
Qed.

Lemma invariant_run target schedule s s' :
invariant target s -> run schedule s = Some s' -> invariant target s'.
Proof.
revert s. induction schedule as [|t rest IH]; intros s Hinv; simpl.
- by intros [= <-].
- destruct (step t s) as [s1| | |] eqn:Hstep; try done.
  apply IH. by eapply invariant_step.
Qed.

(** Every step is one of the steps that were left. *)
Lemma work_step t s s' : step t s = Steps s' -> work s = S (work s').
Proof.
unfold Threads.step, work.
destruct (threads s !! t) as [th|] eqn:Ht; [|done].
destruct th as [[|n]|n|n r|n]; try done;
  try (destruct (construct _ _ _); try done);
  try (destruct (destroy _ _ _); try done);
  intros [= <-]; simpl;
  match goal with
  | |- context [<[t := ?th']> _] =>
      pose proof (sum_list_fmap_insert steps_left _ _ _ th' Ht) as Hsum
  end;
  simpl in Hsum; lia.
Qed.

Lemma work_run schedule s s' :
run schedule s = Some s' -> work s = length schedule + work s'.
Proof.
revert s. induction schedule as [|t rest IH]; intros s; simpl.
- by intros [= <-].
- destruct (step t s) as [s1| | |] eqn:Hstep; try done.
  intros Hrun. rewrite (work_step _ _ _ Hstep), (IH _ Hrun). lia.
Qed.

Lemma joined_work (s : state V) : joined s = true <-> work s = 0.
Proof.
unfold joined, work. induction (threads s) as [|th l IH]; simpl; [done|].
rewrite andb_true_iff, IH.
destruct th as [[|n]|n|n r|n]; simpl; split; intros H;
  try lia; try (by destruct H); split; (done || lia).
Qed.

(** A thread that has not ended stands in the list. *)
Lemma not_joined (s : state V) :
joined s = false ->
exists t th, threads s !! t = Some th /\ has_ended th = false.
Proof.
unfold joined. induction (threads s) as [|th l IH]; simpl; [done|].
intros [H|H]%andb_false_iff.
- by exists 0, th.
- destruct (IH H) as (t & th' & Ht & Hth). by exists (S t), th'.
Qed.

(** While a thread has not ended, some thread can take a step. *)
Lemma invariant_progress target s :
invariant target s -> joined s = false ->
exists t s', step t s = Steps s'.
Proof.
intros Hinv Hj. unfold Threads.step.
destruct (owner (mutex s)) as [[o k]|] eqn:Ho.
- destruct (inv_owner _ _ _ Hinv _ _ Ho) as (th & Hth & Hin).
  pose proof (inv_inside _ _ _ Hinv _ _ Hth Hin) as Hown.
  exists o. rewrite Hth.
  destruct th as [n|n|n r|n]; try done; eauto.
  rewrite (destroy_unique_owned _ _ Hown (inv_readers _ _ _ Hinv)).
  simpl. eauto.
- destruct (not_joined _ Hj) as (t & th & Ht & Hth).
  exists t. rewrite Ht.
  destruct th as [[|n]|n|n r|n]; try done;
    try (pose proof (inv_inside _ _ _ Hinv _ _ Ht eq_refl); congruence).
  rewrite (construct_unique_free _ _ Ho (inv_readers _ _ _ Hinv)).
  simpl. eauto.
Qed.

(** No step has undefined behaviour. *)
Lemma invariant_no_fault target s t :
invariant target s -> step t s <> Faults.
Proof.
intros Hinv. unfold Threads.step.
destruct (threads s !! t) as [th|] eqn:Ht; [|done].
destruct th as [[|n]|n|n r|n]; try done.
- destruct (construct unique t (mutex s)) eqn:Hc; try done.
  destruct (construct_unique_faults _ _ Hc) as [[k Ho]|Hr].
  + destruct (inv_owner _ _ _ Hinv _ _ Ho) as (th & Hth & Hin).
    rewrite Ht in Hth. by simplify_eq.
  + by rewrite (inv_readers _ _ _ Hinv) in Hr.
- pose proof (inv_inside _ _ _ Hinv _ _ Ht eq_refl) as Hown.
  by rewrite (destroy_unique_owned _ _ Hown (inv_readers _ _ _ Hinv)).
Qed.

Lemma work_start n calls (v : V) : work (start n calls v) = 4 * (n * calls).
Proof.
unfold work. simpl. rewrite fmap_replicate, sum_list_replicate. simpl. lia.
Qed.

(** From every state the threads can reach, they can run on until all
    can be joined. *)
Lemma invariant_completes target s :
  invariant target s ->
  exists rest s', run rest s = Some s' /\ joined s' = true.
Proof.
  remember (work s) as k eqn:Hk. revert s Hk.
  induction k as [|k IH]; intros s Hk Hinv.
  - exists [], s. split; [done|]. by apply joined_work.
  - destruct (joined s) eqn:Hj; [by exists [], s|].
    destruct (invariant_progress _ _ Hinv Hj) as (t & s1 & Hstep).
    pose proof (work_step _ _ _ Hstep) as Hw.
    destruct (IH s1) as (rest & s' & Hrun & Hjoined).
    + lia.
    + by eapply invariant_step.
    + exists (t :: rest), s'. split; [|done]. simpl. by rewrite Hstep.
Qed.

(** The four steps of one call, taken without interruption, are
    [with_lock] of the single-threaded model applied to the incrementing
    function. *)
Lemma call_is_with_lock (E : Type) t n (s : state V) :
  threads s !! t = Some (Outside (S n)) ->
  run [t; t; t; t] s =
    match Wrapper.with_lock (E := E) AMutexType t
            (fun v => (increment v, Wrapper.Returned tt))
            (Wrapper.LockWrapper (mutex s) (value s)) with
    | Wrapper.Finished _ w _ =>
        Some (State (Wrapper.m_mutex w) (Wrapper.m_contained w)
                (<[t := Outside n]> (threads s)))
    | Wrapper.Blocked | Wrapper.UndefinedBehaviour => None
    end.
Proof.
  intros Ht. pose proof (lookup_lt_Some _ _ _ Ht) as Hlen.
  rewrite with_lock_runs. cbn [Wrapper.m_mutex Wrapper.m_contained fst snd].
  cbn [Threads.run]. unfold Threads.step at 1. rewrite Ht.
  destruct (construct unique t (mutex s)) as [m1| |] eqn:Hc; try done.
  cbn [on_outcome].
  unfold Threads.step at 1. cbn [threads value mutex].
  rewrite list_lookup_insert_eq by done.
  unfold Threads.step at 1. cbn [threads value mutex].
  rewrite list_lookup_insert_eq by (by rewrite length_insert).
  unfold Threads.step at 1. cbn [threads value mutex].
  rewrite list_lookup_insert_eq by (by rewrite !length_insert).
  rewrite (destroy_construct _ _ _ _ Hc). cbn [on_outcome].
  by rewrite !list_insert_insert_eq.
Qed.

End counter_facts.

(** C9. Threads that increment the value under with_lock lose no update.
    Take any type with an increment, any of the three mutexes, [n] threads
    that each make [calls] calls of with_lock with an incrementing
    function on one wrapper holding [v], and any interleaving of their
    steps (constructing the lock, reading, writing, destroying the lock).
    In every state reached: at most one thread is inside a call; no step
    has undefined behaviour; unless all threads have ended some thread
    can step, and the threads can go on until all have ended; the steps
    taken and the steps left add up to [4 * n * calls],
    so that every execution comes to an end; and once all threads can be
    joined the value is [v] incremented [n * calls] times. With one call
    per thread that is [n] increments. *)
Theorem no_lost_update :
  forall (V : Type) (increment : V -> V) (AMutexType : mutex_kind)
         (n calls : nat) (v : V)
         (schedule : list thread_id) (s : Threads.state V),
    Threads.run increment AMutexType schedule (Threads.start n calls v) = Some s ->
    (Threads.joined s = true ->
     Threads.value s = Nat.iter (n * calls) increment v)
    /\ (Threads.joined s = false ->
        exists t s', Threads.step increment AMutexType t s = Threads.Steps s')
    /\ (exists rest s',
           Threads.run increment AMutexType rest s = Some s'
           /\ Threads.joined s' = true)
    /\ (forall t, Threads.step increment AMutexType t s <> Threads.Faults)
    /\ length schedule + Threads.work s = 4 * (n * calls)
    /\ (Threads.joined s = true <-> length schedule = 4 * (n * calls))
    /\ (forall t u tht thu,
           Threads.threads s !! t = Some tht ->
           Threads.threads s !! u = Some thu ->
           Threads.inside tht = true -> Threads.inside thu = true -> t = u).
Proof.
  intros V increment M n calls v schedule s Hrun.
  pose proof (invariant_run increment M _ _ _ _
                (invariant_start increment n calls v) Hrun) as Hinv.
  pose proof (work_run increment M _ _ _ Hrun) as Hwork.
  rewrite work_start in Hwork.
  split; [|split; [|split; [|split; [|split; [|split]]]]].
  - intros Hj. rewrite <- (Threads.inv_value _ _ _ Hinv).
    unfold Threads.increments_due.
    apply joined_work in Hj. revert Hj. unfold Threads.work.
    assert (Hle : sum_list (Threads.pending <$> Threads.threads s)
                  <= sum_list (Threads.steps_left <$> Threads.threads s)).
    { induction (Threads.threads s) as [|th l IH]; csimpl; [done|].
      destruct th; cbn [Threads.pending Threads.steps_left]; lia. }
    intros Hz. by replace (sum_list (Threads.pending <$> Threads.threads s))
      with 0 by lia.
  - by apply (invariant_progress increment M _ _ Hinv).
  - by apply (invariant_completes increment M _ _ Hinv).
  - intros t. by apply (invariant_no_fault increment M _ _ _ Hinv).
  - lia.
  - rewrite joined_work. lia.
  - intros t u tht thu. by apply (invariant_exclusion increment _ _ _ _ _ _ Hinv).
Qed.

(** The test with four threads: each makes 25 calls, the value starts at 0
    and ends at 100, here with the threads taking turns call by call. *)
Lemma no_lost_update_witness :
  Threads.run Z.succ std_mutex (Threads.call_by_call 4 25)
    (Threads.start 4 25 0%Z)
  = Some (Threads.State unlocked 100%Z (replicate 4 (Threads.Outside 0)))
  /\ 100%Z = Nat.iter (4 * 25) Z.succ 0%Z.
Proof.
  assert (Hrun : Threads.run Z.succ std_mutex (Threads.call_by_call 4 25)
                   (Threads.start 4 25 0%Z)
                 = Some (Threads.State unlocked 100%Z
                           (replicate 4 (Threads.Outside 0))))
    by (vm_compute; reflexivity).
  split; [exact Hrun|].
  exact (proj1 (no_lost_update Z Z.succ std_mutex 4 25 0%Z _ _ Hrun) eq_refl).
Defined.

(** * Further properties *)

(** ** Of the concepts and the overloads *)

Section concept_facts.
Import Wrapper Program Tests.
Variable env : class_env.

Lemma same_reference T :
  add_lvalue_reference T = add_lvalue_reference (add_const T)
  <-> absorbs_const T = true.
Proof. destruct T; simpl; split; intros H; congruence. Qed.

(** The parameter type a concept block can report for [F], which is one
    whatever the block. *)
Lemma concept_blocks_agree P Q F :
  sole_parameter_is P (function_traits F)
  || sole_parameter_is P (call_operator_pointer env F ≫= function_traits)
  = true ->
  sole_parameter_is Q (function_traits F)
  || sole_parameter_is Q (call_operator_pointer env F ≫= function_traits)
  = true ->
  P = Q.
Proof.
  intros HP HQ.
  assert (Hd : forall X,
             sole_parameter_is X (function_traits F)
             || sole_parameter_is X
                  (call_operator_pointer env F ≫= function_traits) = true ->
             exists tr, arg_types tr = [X]
                        /\ (function_traits F = Some tr
                            \/ (function_traits F = None
                                /\ call_operator_pointer env F
                                     ≫= function_traits = Some tr))).
  { intros X [H|H]%orb_true_iff; apply sole_parameter_is_true in H as [r H].
    - eexists. split; [|left; exact H]. done.
    - eexists. split; [|right; split; [|exact H]]; [done|].
      destruct (call_operator_pointer env F) as [m|] eqn:Hm; [|done].
      unfold call_operator_pointer in Hm.
      by destruct F. }
  destruct (Hd _ HP) as (tp & Hp & Hwp), (Hd _ HQ) as (tq & Hq & Hwq).
  assert (tp = tq) as -> by (destruct Hwp as [?|[? ?]], Hwq as [?|[? ?]];
                             congruence).
  congruence.
Qed.

Lemma concepts_coincide T :
  absorbs_const T = true ->
  forall F,
    unary_reference_function env F T = unary_const_reference_function env F T.
Proof.
  intros HT F. unfold unary_reference_function,
    unary_const_reference_function.
  apply same_reference in HT. by rewrite <- HT.
Qed.

(** X1. No callable is both a writer and a reader. For a contained type
    that is not const-qualified (and no reference), no type satisfies both
    concepts, so at most one overload of with_lock is ever viable; for a
    const-qualified contained type, and only then, [T &] and [const T &]
    are one type and the two concepts are the same. *)
Theorem concepts_exclusive :
  forall T : type,
    (absorbs_const T = false ->
     forall F,
       unary_reference_function env F T
       && unary_const_reference_function env F T = false)
    /\ (absorbs_const T = true ->
        forall F,
          unary_reference_function env F T
          = unary_const_reference_function env F T).
Proof.
  intros T. split.
  - intros HT F. apply not_true_is_false. intros [H1 H2]%andb_true_iff.
    pose proof (concept_blocks_agree _ _ _ H1 H2) as Heq.
    apply same_reference in Heq. congruence.
  - apply concepts_coincide.
Qed.

(** X2. A wrapper of a const-qualified type locks exclusively whenever it
    can: through a non-const wrapper with_lock never takes shared_lock,
    not even for a function that takes [const T &]; what a const wrapper
    runs under shared_lock, a non-const wrapper runs under unique_lock. *)
Theorem const_contained_locks_unique :
  forall (T : type) (a : argument),
    absorbs_const T = true ->
    select_overload env T MutableHandle a <> Some SharedOverload
    /\ (select_overload env T ConstHandle a = Some SharedOverload
        <-> select_overload env T MutableHandle a = Some UniqueOverload)
    /\ select_overload env T ConstHandle a <> Some UniqueOverload.
Proof.
  intros T a HT. unfold select_overload.
  rewrite (concepts_coincide T HT). simpl.
  case_bool_decide; [|done].
  by destruct (unary_const_reference_function env (deduce_auto a) T).
Qed.

(** X3. Of the callables that have a name, only functions are accepted:
    when the argument of with_lock is an lvalue and an overload is
    selected, the argument is a function without noexcept or other
    qualifiers. A closure object, a function pointer or a std::function
    kept in a variable is rejected unless it is moved. *)
Theorem named_arguments_are_functions :
  forall (T : type) (h : handle) (a : argument) (o : overload),
    arg_category a = LValue ->
    select_overload env T h a = Some o ->
    exists r ps, arg_type a = TFun r ps unqualified.
Proof.
  intros T h [F cat] o Hcat. simpl in Hcat. subst cat.
  unfold select_overload, deduce_auto. simpl.
  case_bool_decide; [|done].
  assert (Hfun : forall P,
             sole_parameter_is P (function_traits (TLRef F))
             || sole_parameter_is P
                  (call_operator_pointer env (TLRef F) ≫= function_traits)
             = true ->
             exists r ps, F = TFun r ps unqualified).
  { intros P. unfold call_operator_pointer. simpl. rewrite orb_false_r.
    destruct F; try done. case_decide; [|done]. subst. eauto. }
  destruct (allows_mutation h && _) eqn:Hu.
  - intros _. apply andb_true_iff in Hu as [_ Hu]. by eapply Hfun.
  - destruct (unary_const_reference_function _ _ _) eqn:Hs; [|done].
    intros _. by eapply Hfun.
Qed.

(** X4. A function with anything added to its type is rejected, however
    it is passed: with noexcept, a C ellipsis or member qualifiers on the
    function type, neither the function nor a pointer to it is accepted by
    with_lock, whatever its parameters. *)
Theorem qualified_functions_rejected :
  forall (T r : type) (ps : list type) (q : fn_qualifiers)
         (h : handle) (cat : value_category),
    q <> unqualified ->
    select_overload env T h (Argument (TFun r ps q) cat) = None
    /\ select_overload env T h (Argument (TPtr (TFun r ps q)) cat) = None.
Proof.
  intros T r ps q h cat Hq.
  unfold select_overload, deduce_auto, unary_reference_function,
    unary_const_reference_function, call_operator_pointer.
  destruct cat; simpl; rewrite ?decide_False by done; simpl;
    rewrite ?andb_false_r; by repeat case_bool_decide.
Qed.

(** X6. What a const wrapper does. When with_lock compiles on a const
    wrapper, the callable was declared with [const T &] as its one
    parameter and the second overload runs: the mutex is taken through
    mutex_traits::shared_lock and released after the call, and never
    through unique_lock. The declared parameter does not bind the
    function: the value afterwards is the one the function left, which is
    the value before for a function that only reads, and the written one
    for a function that writes through a reference of its own. *)
Theorem const_wrapper_locks_shared :
  forall (V E R : Type) (T : type) (AMutexType : mutex_kind)
         (self : thread_id) (c : callable V E R) (run : action V E R),
    call_with_lock env T AMutexType self ConstHandle c = WellFormed run ->
    let shared := shared_lock (mutex_traits AMutexType) in
    declared_parameters env (arg_type (passed_as c))
    = Some [const_reference T]
    /\ select_overload env T ConstHandle (passed_as c) = Some SharedOverload
    /\ (forall w,
           let r := as_mutating (does c) (m_contained w) in
           run w =
             match Mutex.construct shared self (m_mutex w) with
             | Ok _ =>
                 Finished r.2 (LockWrapper (m_mutex w) r.1)
                   [OnMutex (constructor_call (lock_class shared));
                    Invoke (m_contained w);
                    OnMutex (destructor_call (lock_class shared))]
             | Waits => Blocked
             | Undefined => UndefinedBehaviour
             end)
    /\ (forall f w,
           does c = ReadOnly f ->
           (as_mutating (does c) (m_contained w)).1 = m_contained w).
Proof.
  intros V E R T M self c run. unfold call_with_lock.
  destruct (select_overload env T ConstHandle (passed_as c)) as [o|] eqn:Hsel;
    [|done].
  pose proof (select_overload_declared _ _ _ _ _ Hsel) as Hdecl.
  assert (o = SharedOverload) as ->.
  { revert Hsel. unfold select_overload. simpl.
    repeat case_match; congruence. }
  intros Hrun. cbv zeta.
  split; [done|]. split; [done|]. split.
  - intros w. destruct (does c) as [f|f]; injection Hrun as <-.
    + apply with_lock_const_aliased_runs.
    + rewrite with_lock_const_runs. by destruct w.
  - by intros f w ->.
Qed.

End concept_facts.

Section concept_witnesses.
Import Wrapper Program Tests.

Lemma concepts_exclusive_witness :
  unary_reference_function closures (TClass "cref_lambda") TInt
  && unary_const_reference_function closures (TClass "cref_lambda") TInt
  = false
  /\ unary_reference_function closures (TClass "cref_lambda") (TConst TInt)
     = unary_const_reference_function closures (TClass "cref_lambda")
         (TConst TInt).
Proof.
  split.
  - exact (proj1 (concepts_exclusive closures TInt) eq_refl
             (TClass "cref_lambda")).
  - exact (proj2 (concepts_exclusive closures (TConst TInt)) eq_refl
             (TClass "cref_lambda")).
Defined.

Lemma const_contained_locks_unique_witness :
  select_overload closures (TConst TInt) MutableHandle (lambda "cref_lambda")
  <> Some SharedOverload
  /\ select_overload closures (TConst TInt) MutableHandle (lambda "cref_lambda")
     = Some UniqueOverload.
Proof.
  pose proof (const_contained_locks_unique closures (TConst TInt)
                (lambda "cref_lambda") eq_refl) as (H1 & H2 & _).
  split; [exact H1|]. apply H2. vm_compute. reflexivity.
Defined.

Lemma named_arguments_are_functions_witness :
  exists r ps, arg_type (function increment_value_type) = TFun r ps unqualified.
Proof.
  assert (Hsel : select_overload closures TInt MutableHandle
                   (function increment_value_type) = Some UniqueOverload)
    by (vm_compute; reflexivity).
  exact (named_arguments_are_functions closures TInt MutableHandle
           (function increment_value_type) UniqueOverload eq_refl Hsel).
Defined.

Lemma qualified_functions_rejected_witness :
  select_overload closures TInt MutableHandle
    (Argument (TFun TVoid [TLRef TInt]
                 (FnQualifiers false false RefNone true false)) LValue)
  = None.
Proof.
  assert (Hq : FnQualifiers false false RefNone true false <> unqualified)
    by discriminate.
  exact (proj1 (qualified_functions_rejected closures TInt TVoid [TLRef TInt]
                  _ MutableHandle LValue Hq)).
Defined.

Lemma const_wrapper_locks_shared_witness :
  with_lock_const_aliased std_mutex main increment_value (wrapper 42)
  = Finished (Returned tt) (wrapper 43)
      [OnMutex CallLock; Invoke 42%Z; OnMutex CallUnlock].
Proof.
  assert (Hc : call_with_lock closures TInt std_mutex main ConstHandle
                 (Callable (lambda "cref_lambda") (Mutating increment_value))
               = WellFormed
                   (with_lock_const_aliased std_mutex main increment_value))
    by (vm_compute; reflexivity).
  exact (proj1 (proj2 (proj2
           (const_wrapper_locks_shared closures int exception unit TInt
              std_mutex main _ _ Hc))) (wrapper 42)).
Defined.

End concept_witnesses.

(** ** Of calls that meet a mutex in use *)

Section contention.
Import Wrapper.
Context {V E : Type}.
Variable AMutexType : mutex_kind.

Local Abbreviation unique := (unique_lock (mutex_traits AMutexType)).
Local Abbreviation shared := (shared_lock (mutex_traits AMutexType)).

(** X7. A writer keeps everybody out. While a thread owns the mutex
    exclusively, a call of with_lock by any other thread waits, through
    either overload and with any of the three mutexes: the function is
    not called and nothing changes. *)
Theorem owner_excludes_others :
  forall (R : Type) (self other : thread_id) (n : nat)
         (w : basic_lock_wrapper V)
         (f : V -> V * call_result R E) (g : V -> call_result R E),
    other <> self ->
    owner (m_mutex w) = Some (other, n) ->
    with_lock AMutexType self f w = Blocked
    /\ with_lock_const AMutexType self g w = Blocked.
Proof.
  intros R self other n [[o rs] v] f g Hne Ho. simpl in Ho. subst o.
  rewrite with_lock_runs, with_lock_const_runs. simpl.
  unfold Mutex.construct, perform.
  destruct AMutexType; simpl; unfold lock, lock_shared; simpl;
    by rewrite decide_False.
Qed.

(** X8. Readers share the lock with std::shared_mutex alone. While one
    thread is inside the const overload (its lock constructed on a mutex
    that both threads could have taken), a second thread's call through
    the const overload runs at once when the mutex is std::shared_mutex,
    leaving the first reader's hold as it is, and waits with std::mutex
    and std::recursive_mutex; a call through the non-const overload waits
    with all three. *)
Theorem readers_share_only_shared_mutex :
  forall (R : Type) (reader other : thread_id)
         (w w1 : basic_lock_wrapper V) (r1 : call_result unit E)
         (tr1 : list (event V))
         (f : V -> V * call_result R E) (g : V -> call_result R E),
    reader <> other ->
    obtains shared other (m_mutex w) = true ->
    lock_constructor reader shared w = Finished r1 w1 tr1 ->
    with_lock AMutexType other f w1 = Blocked
    /\ with_lock_const AMutexType other g w1
       = match AMutexType with
         | std_shared_mutex =>
             Finished (g (m_contained w)) w1
               [OnMutex CallLockShared; Invoke (m_contained w);
                OnMutex CallUnlockShared]
         | std_mutex | std_recursive_mutex => Blocked
         end.
Proof.
  intros R reader other [[o rs] v] w1 r1 tr1 f g Hne Hobt Hctor.
  rewrite with_lock_runs, with_lock_const_runs.
  revert Hobt Hctor.
  unfold obtains, lock_constructor, on_mutex, Mutex.construct, perform.
  destruct AMutexType; simpl; unfold lock, lock_shared; simpl.
  - (* std::mutex *)
    destruct o as [[o n]|]; simpl.
    + case_decide; [done|]. done.
    + destruct rs as [|x rs]; simpl; [|by case_bool_decide].
      intros _ [= _ <- _]. simpl. by rewrite decide_False.
  - (* std::shared_mutex *)
    destruct o as [[o n]|]; simpl.
    + case_decide; done.
    + case_bool_decide as Hin; [done|]. intros _.
      case_bool_decide as Hin'; [done|].
      intros [= _ <- _]. simpl.
      assert (Hnot : other ∉ reader :: rs)
        by (rewrite elem_of_cons; intros [?|?]; [congruence|done]).
      by rewrite !bool_decide_eq_false_2 by done.
  - (* std::recursive_mutex *)
    destruct o as [[o n]|]; simpl.
    + case_decide as Ho; [|done]. subst o. intros _.
      rewrite decide_False by done. done.
    + destruct rs as [|x rs]; simpl; [|by case_bool_decide].
      intros _ [= _ <- _]. simpl. by rewrite decide_False.
Qed.

End contention.

Section contention_witnesses.
Import Wrapper Tests.

Lemma owner_excludes_others_witness :
  with_lock std_mutex 1 increment_value
    (LockWrapper (MutexState (Some (0, 0)) []) 42%Z) = Blocked
  /\ with_lock_const std_shared_mutex 1 get_incremented_value
       (LockWrapper (MutexState (Some (0, 0)) []) 42%Z) = Blocked.
Proof.
  assert (Hne : 0 <> 1) by lia.
  split.
  - exact (proj1 (owner_excludes_others std_mutex unit 1 0 0
                    (LockWrapper (MutexState (Some (0, 0)) []) 42%Z)
                    increment_value (fun _ => Returned tt) Hne eq_refl)).
  - exact (proj2 (owner_excludes_others std_shared_mutex int 1 0 0
                    (LockWrapper (MutexState (Some (0, 0)) []) 42%Z)
                    post_increment get_incremented_value Hne eq_refl)).
Defined.

Lemma readers_share_only_shared_mutex_witness :
  with_lock std_shared_mutex 1 post_increment
    (LockWrapper (MutexState None [0]) 42%Z) = Blocked
  /\ with_lock_const std_shared_mutex 1 get_incremented_value
       (LockWrapper (MutexState None [0]) 42%Z)
     = Finished (Returned 43%Z) (LockWrapper (MutexState None [0]) 42%Z)
         [OnMutex CallLockShared; Invoke 42%Z; OnMutex CallUnlockShared].
Proof.
  assert (Hne : 0 <> 1) by lia.
  assert (Hctor : lock_constructor (E := exception) 0
                    (shared_lock (mutex_traits std_shared_mutex)) (wrapper 42)
                  = Finished (Returned tt)
                      (LockWrapper (MutexState None [0]) 42%Z)
                      [OnMutex CallLockShared])
    by (vm_compute; reflexivity).
  exact (readers_share_only_shared_mutex std_shared_mutex int 0 1
           (wrapper 42) _ _ _ post_increment get_incremented_value
           Hne eq_refl Hctor).
Defined.

End contention_witnesses.

(** ** Of calls within calls and calls in a row *)

Section composition.
Import Wrapper.
Context {V E : Type}.
Variable AMutexType : mutex_kind.
Variable self : thread_id.

Local Abbreviation unique := (unique_lock (mutex_traits AMutexType)).
Local Abbreviation shared := (shared_lock (mutex_traits AMutexType)).

(** Constructing a second lock of the same class while holding the first. *)
Lemma construct_again (L : lock_type) m m1 :
  L = unique \/ L = shared ->
  Mutex.construct L self m = Ok m1 ->
  match AMutexType with
  | std_recursive_mutex => exists m2, Mutex.construct L self m1 = Ok m2
  | std_mutex | std_shared_mutex => Mutex.construct L self m1 = Undefined
  end.
Proof.
  intros HL. destruct m as [o rs]. revert HL.
  unfold Mutex.construct, perform.
  destruct AMutexType; intros [-> | ->]; simpl; unfold lock, lock_shared;
    simpl; intros H;
    repeat match type of H with
      | context [match ?x with _ => _ end] => destruct x eqn:?; simpl in H
      end;
    simplify_eq; simpl;
    rewrite ?decide_True, ?bool_decide_eq_true_2
      by (done || (apply elem_of_cons; by left));
    eauto.
Qed.

(** X9. A call of with_lock from inside a call of with_lock on the same
    wrapper, by the same thread, is sound only on a
    recursive_lock_wrapper. There the inner call runs, both locks are
    released in turn and the mutex is as before; with std::mutex and
    std::shared_mutex the inner lock has undefined behaviour (the thread
    locks a mutex it owns), in the non-const and in the const overload
    alike. A closure that leaves the wrapper alone is run as a plain
    function is. *)
Theorem nested_with_lock :
  forall (R : Type) (w : basic_lock_wrapper V),
    (forall f : V -> V * call_result R E,
        obtains unique self (m_mutex w) = true ->
        with_lock_capturing AMutexType self
          (fun _ => with_lock AMutexType self f) w
        = match AMutexType with
          | std_recursive_mutex =>
              Finished (f (m_contained w)).2
                (LockWrapper (m_mutex w) (f (m_contained w)).1)
                [OnMutex CallLock; Invoke (m_contained w);
                 OnMutex CallLock; Invoke (m_contained w);
                 OnMutex CallUnlock; OnMutex CallUnlock]
          | std_mutex | std_shared_mutex => UndefinedBehaviour
          end)
    /\ (forall g : V -> call_result R E,
           obtains shared self (m_mutex w) = true ->
           with_lock_const_capturing AMutexType self
             (fun _ => with_lock_const AMutexType self g) w
           = match AMutexType with
             | std_recursive_mutex =>
                 Finished (g (m_contained w)) w
                   [OnMutex CallLock; Invoke (m_contained w);
                    OnMutex CallLock; Invoke (m_contained w);
                    OnMutex CallUnlock; OnMutex CallUnlock]
             | std_mutex | std_shared_mutex => UndefinedBehaviour
             end)
    /\ (forall f : V -> V * call_result R E,
           with_lock_capturing AMutexType self (ignoring_wrapper f) w
           = with_lock AMutexType self f w).
Proof.
  intros R w. split; [|split].
  - intros f Hobt. destruct (obtains_construct _ _ _ Hobt) as [m1 Hc].
    pose proof (construct_again _ _ _ (or_introl eq_refl) Hc) as Hagain.
    pose proof (destroy_construct _ _ _ _ Hc) as Hd.
    unfold with_lock_capturing, scoped, lock_constructor, on_mutex,
      call_capturing, bind, ret.
    rewrite Hc. cbn [m_contained m_mutex].
    rewrite with_lock_runs. cbn [m_contained m_mutex].
    destruct AMutexType; try (by rewrite Hagain).
    destruct Hagain as [m2 ->].
    destruct (f (m_contained w)) as [v' [r|e]]; cbn [fst snd];
      unfold lock_destructor, on_mutex; cbn [m_contained m_mutex];
      by rewrite Hd.
  - intros g Hobt. destruct (obtains_construct _ _ _ Hobt) as [m1 Hc].
    pose proof (construct_again _ _ _ (or_intror eq_refl) Hc) as Hagain.
    pose proof (destroy_construct _ _ _ _ Hc) as Hd.
    unfold with_lock_const_capturing, scoped, lock_constructor, on_mutex,
      call_capturing, bind, ret.
    rewrite Hc. cbn [m_contained m_mutex].
    rewrite with_lock_const_runs. cbn [m_contained m_mutex].
    destruct AMutexType; try (by rewrite Hagain).
    destruct Hagain as [m2 ->]. destruct w as [m v].
    cbn [m_contained m_mutex] in *.
    destruct (g v) as [r|e]; cbn [fst snd];
      unfold lock_destructor, on_mutex; cbn [m_contained m_mutex];
      by rewrite Hd.
  - intros f. rewrite with_lock_runs.
    unfold with_lock_capturing.
    rewrite (scoped_runs self _ _ w (f (m_contained w)).2
               (f (m_contained w)).1 [Invoke (m_contained w)]).
    + by destruct AMutexType.
    + intros m. unfold bind, call_capturing, ignoring_wrapper, ret; simpl.
      by destruct (f (m_contained w)) as [v' [r|e]].
Qed.

(** [for_each] does not look at the elements when [f] does not. *)
Lemma for_each_replicate {A} (range : list A) (c : action V E unit) w :
  for_each range (fun _ => c) w
  = for_each (replicate (length range) c) (fun c' => c') w.
Proof.
  revert w. induction range as [|x rest IH]; intros w; [done|].
  simpl. unfold bind. destruct (c w) as [[[]|e] w1 tr1| |]; try done.
  by rewrite IH.
Qed.

Lemma in_turn_increments (increment : V -> V) n v :
  exists seen,
    in_turn (E := E) (replicate n (fun v => (increment v, Returned tt))) v
    = (seen, Nat.iter n increment v, Returned tt)
    /\ length seen = n.
Proof.
  revert v. induction n as [|n IH]; intros v.
  - by exists [].
  - destruct (IH (increment v)) as (seen & Hseen & Hlen).
    exists (v :: seen). cbn [replicate in_turn]. rewrite Hseen.
    split; [by rewrite Nat.iter_succ_r|]. simpl. by rewrite Hlen.
Qed.

Lemma row_in_turn (w : basic_lock_wrapper V)
    (fs : list (V -> V * call_result unit E)) v :
  obtains unique self (m_mutex w) = true ->
  for_each fs (with_lock AMutexType self) (LockWrapper (m_mutex w) v)
  = let '(seen, last, r) := in_turn fs v in
    Finished r (LockWrapper (m_mutex w) last)
      (x ← seen; [OnMutex CallLock; Invoke x; OnMutex CallUnlock]).
Proof.
  intros Hobt. destruct (obtains_construct _ _ _ Hobt) as [m1 Hc].
  revert v. induction fs as [|f rest IH]; intros v; [done|].
  cbn [for_each in_turn]. unfold bind at 1.
  rewrite with_lock_runs. cbn [m_mutex m_contained]. rewrite Hc.
  destruct (f v) as [v' [[]|e]]; cbn [fst snd]; [|done].
  rewrite IH. by destruct (in_turn rest v') as [[seen last] r].
Qed.

Lemma increments_in_a_row (w : basic_lock_wrapper V) (increment : V -> V) n :
  obtains unique self (m_mutex w) = true ->
  exists tr,
    for_each (E := E) (seq 0 n)
      (fun _ => with_lock AMutexType self
                  (fun v => (increment v, Returned tt))) w
    = Finished (Returned tt)
        (LockWrapper (m_mutex w) (Nat.iter n increment (m_contained w))) tr
    /\ length tr = 3 * n.
Proof.
  intros Hobt.
  rewrite for_each_replicate, length_seq.
  assert (Hfs : forall l (x : basic_lock_wrapper V),
             for_each (E := E) ((with_lock AMutexType self) <$> l)
               (fun c' => c') x
             = for_each l (with_lock AMutexType self) x).
  { induction l as [|f l IH]; intros x; [done|].
    simpl. unfold bind.
    destruct (with_lock AMutexType self f x) as [[[]|e] w1 tr1| |]; try done.
    by rewrite IH. }
  rewrite <- fmap_replicate, Hfs.
  destruct w as [m v]. cbn [m_mutex m_contained] in *.
  rewrite (row_in_turn (LockWrapper m v) _ v Hobt).
  destruct (in_turn_increments increment n v) as (seen & -> & Hlen).
  eexists. split; [done|].
  rewrite <- Hlen. clear.
  induction seen as [|x seen IH]; [done|].
  rewrite bind_cons. cbn [app length]. rewrite IH. simpl. lia.
Qed.

(** X10. Calls in a row, as a thread of the last test makes them with
    for_each. Each call takes and releases the lock around its function;
    the functions see the value one after the other, each what the one
    before left; the first exception ends the row, with the lock released
    and what was written so far kept. So [n] incrementing calls leave the
    value incremented [n] times, after [n] rounds of lock, call, unlock. *)
Theorem calls_in_a_row :
  forall w : basic_lock_wrapper V,
    obtains unique self (m_mutex w) = true ->
    (forall fs : list (V -> V * call_result unit E),
        for_each fs (with_lock AMutexType self) w
        = let '(seen, last, r) := in_turn fs (m_contained w) in
          Finished r (LockWrapper (m_mutex w) last)
            (v ← seen; [OnMutex CallLock; Invoke v; OnMutex CallUnlock]))
    /\ (forall (increment : V -> V) (n : nat),
           exists tr,
             for_each (E := E) (seq 0 n)
               (fun _ => with_lock AMutexType self
                           (fun v => (increment v, Returned tt))) w
             = Finished (Returned tt)
                 (LockWrapper (m_mutex w)
                    (Nat.iter n increment (m_contained w))) tr
             /\ length tr = 3 * n).
Proof.
  intros w Hobt. split.
  - intros fs. destruct w as [m v].
    apply (row_in_turn (LockWrapper m v) fs v Hobt).
  - intros increment n. by apply increments_in_a_row.
Qed.

End composition.

Section composition_witnesses.
Import Wrapper Tests.

Lemma nested_with_lock_witness :
  with_lock_capturing std_recursive_mutex main
    (fun _ => with_lock std_recursive_mutex main increment_value) (wrapper 42)
  = Finished (Returned tt) (wrapper 43)
      [OnMutex CallLock; Invoke 42%Z; OnMutex CallLock; Invoke 42%Z;
       OnMutex CallUnlock; OnMutex CallUnlock]
  /\ with_lock_capturing std_mutex main
       (fun _ => with_lock std_mutex main increment_value) (wrapper 42)
     = UndefinedBehaviour
  /\ with_lock_const_capturing std_shared_mutex main
       (fun _ => with_lock_const std_shared_mutex main get_incremented_value)
       (wrapper 42)
     = UndefinedBehaviour.
Proof.
  split; [|split].
  - exact (proj1 (nested_with_lock std_recursive_mutex main unit (wrapper 42))
             increment_value eq_refl).
  - exact (proj1 (nested_with_lock std_mutex main unit (wrapper 42))
             increment_value eq_refl).
  - exact (proj1 (proj2 (nested_with_lock std_shared_mutex main int
                           (wrapper 42)))
             get_incremented_value eq_refl).
Defined.

Lemma calls_in_a_row_witness :
  for_each [increment_value; increment_and_throw "boom"; increment_value]
    (with_lock std_mutex main) (wrapper 0)
  = Finished (Raised "boom"%string) (wrapper 2)
      [OnMutex CallLock; Invoke 0%Z; OnMutex CallUnlock;
       OnMutex CallLock; Invoke 1%Z; OnMutex CallUnlock].
Proof.
  exact (proj1 (calls_in_a_row std_mutex main (wrapper 0) eq_refl)
           [increment_value; increment_and_throw "boom"; increment_value]).
Defined.

End composition_witnesses.

(** ** Of the state the threads leave *)

Section joined_facts.
Import Threads.
Context {V : Type}.
Variable increment : V -> V.
Variable AMutexType : mutex_kind.

Local Abbreviation step := (Threads.step increment AMutexType).
Local Abbreviation run := (Threads.run increment AMutexType).

Lemma step_threads t (s s' : state V) :
  step t s = Steps s' -> length (threads s') = length (threads s).
Proof.
  unfold Threads.step.
  destruct (threads s !! t) as [[[|n]|n|n r|n]|]; try done;
    try (destruct (construct _ _ _); try done);
    try (destruct (destroy _ _ _); try done);
    intros [= <-]; simpl; by rewrite length_insert.
Qed.

Lemma run_threads schedule (s s' : state V) :
  run schedule s = Some s' -> length (threads s') = length (threads s).
Proof.
  revert s. induction schedule as [|t rest IH]; intros s; simpl.
  - by intros [= <-].
  - destruct (step t s) as [s1| | |] eqn:Hstep; try done.
    intros Hrun. rewrite (IH _ Hrun). by eapply step_threads.
Qed.

Lemma joined_threads (s : state V) :
  joined s = true -> threads s = replicate (length (threads s)) (Outside 0).
Proof.
  unfold joined. induction (threads s) as [|th l IH]; simpl; [done|].
  intros [Hth Hl]%andb_true_iff. rewrite <- IH by done.
  by destruct th as [[|n]|n|n r|n].
Qed.

End joined_facts.

(** X11. Every interleaving ends alike, and as one thread would. When the
    threads of the last test have all ended, whatever the order of their
    steps, the state is one and the same: the mutex unlocked, every thread
    at its end, and the wrapper as a single thread leaves it that makes
    all [n * calls] calls in a row with for_each. *)
Theorem interleavings_end_alike :
  forall (V : Type) (increment : V -> V) (AMutexType : mutex_kind)
         (n calls : nat) (v : V)
         (schedule : list thread_id) (s : Threads.state V),
    Threads.run increment AMutexType schedule (Threads.start n calls v) = Some s ->
    Threads.joined s = true ->
    s = Threads.State unlocked (Nat.iter (n * calls) increment v)
          (replicate n (Threads.Outside 0))
    /\ exists tr,
        Wrapper.for_each (E := Empty_set) (seq 0 (n * calls))
          (fun _ => Wrapper.with_lock AMutexType 0
                      (fun x => (increment x, Wrapper.Returned tt)))
          (Wrapper.construct v)
        = Wrapper.Finished (Wrapper.Returned tt)
            (Wrapper.LockWrapper (Threads.mutex s) (Threads.value s)) tr.
Proof.
  intros V increment M n calls v schedule s Hrun Hj.
  pose proof (invariant_run increment M _ _ _ _
                (invariant_start increment n calls v) Hrun) as Hinv.
  pose proof (run_threads increment M _ _ _ Hrun) as Hlen.
  simpl in Hlen. rewrite length_replicate in Hlen.
  pose proof (joined_threads _ Hj) as Hthreads. rewrite Hlen in Hthreads.
  assert (Hmutex : Threads.mutex s = unlocked).
  { destruct (Threads.mutex s) as [o rs] eqn:Hm.
    pose proof (Threads.inv_readers _ _ _ Hinv) as Hr.
    rewrite Hm in Hr. simpl in Hr. subst rs.
    destruct o as [[o k]|]; [|done].
    destruct (Threads.inv_owner _ _ _ Hinv o k) as (th & Hth & Hin).
    { by rewrite Hm. }
    rewrite Hthreads in Hth. apply lookup_replicate in Hth as [-> _]. done. }
  assert (Hvalue : Threads.value s = Nat.iter (n * calls) increment v).
  { rewrite <- (Threads.inv_value _ _ _ Hinv).
    unfold Threads.increments_due. rewrite Hthreads.
    rewrite fmap_replicate, sum_list_replicate. simpl.
    by rewrite Nat.mul_0_r. }
  split.
  - destruct s as [m x ths].
    cbn [Threads.mutex Threads.value Threads.threads] in Hmutex, Hvalue, Hthreads.
    congruence.
  - rewrite Hmutex, Hvalue.
    destruct (increments_in_a_row (E := Empty_set) M 0 (Wrapper.construct v)
                increment (n * calls)) as (tr & Htr & _).
    { by destruct M. }
    by exists tr.
Qed.

Lemma interleavings_end_alike_witness :
  Threads.State unlocked 100%Z (replicate 4 (Threads.Outside 0))
  = Threads.State unlocked (Nat.iter (4 * 25) Z.succ 0%Z)
      (replicate 4 (Threads.Outside 0)).
Proof.
  assert (Hrun : Threads.run Z.succ std_shared_mutex (Threads.call_by_call 4 25)
                   (Threads.start 4 25 0%Z)
                 = Some (Threads.State unlocked 100%Z
                           (replicate 4 (Threads.Outside 0))))
    by (vm_compute; reflexivity).
  exact (proj1 (interleavings_end_alike Z Z.succ std_shared_mutex 4 25 0%Z
                  _ _ Hrun eq_refl)).
Defined.

(** ** Of objects without an initializer *)

Section determinacy.
Import Init.

Lemma default_initialize_determinate zeroed T :
  determinate (default_initialize zeroed T)
  = zeroed || negb (has_bare_scalar T).
Proof.
  induction T as [|user_provided ms IH] using object_type_members_ind.
  - by destruct zeroed.
  - cbn [default_initialize determinate has_bare_scalar].
    induction IH as [|[given U] ms HU _ IH]; cbn [map forallb existsb].
    + by rewrite orb_true_r.
    + rewrite IH. destruct given; cbn [determinate negb andb orb].
      * done.
      * cbn [snd] in HU. rewrite HU. destruct zeroed; [done|].
        cbn [orb]. by rewrite negb_orb.
Qed.

(** X12. What a wrapper constructed without arguments leaves without a
    value. The contained value has no indeterminate part exactly when the
    storage of the wrapper is zeroed first (an empty initializer, or static
    or thread storage duration), or the contained type has no scalar left
    without an initializer: itself a scalar, or a scalar member, at any
    depth, that neither a constructor nor a default member initializer
    gives a value. *)
Theorem default_construction_determinate :
  forall (d : storage_duration) (i : initializer) (T : object_type),
    (determinate <$> m_contained (construct d i T))
    = Some (zeroed_before d i || negb (has_bare_scalar T)).
Proof.
  intros d i T. rewrite construct_members. cbn [m_contained fmap option_fmap option_map].
  f_equal. apply default_initialize_determinate.
Qed.

End determinacy.
